(** * objmod: path-addressed access to nested objects

    A shallow embedding of the TypeScript module (get, set, has, del, scan,
    merge, map, filter, cache) over an explicit JavaScript object heap.

    Modelling boundary.  The objects of the heap are the plain objects and
    the arrays that literals, [JSON.parse] and assignments build:
    extensible, with writable enumerable data properties, and with
    [Object.prototype] or [Array.prototype] as prototype.  Such an object
    is its list of own enumerable string-keyed properties, kept in the
    order [Object.entries] reports them (array indices ascending, then the
    other keys in insertion order).  An array is the object whose keys are
    its indices.  Inherited properties
    ([Object.prototype], [Array.prototype], the key [__proto__]), the
    [length] of arrays, accessors and proxies are outside the model; numbers
    are the integers.  The names concerned are listed in [prototype_keys]:
    on every other key the three primitives [js_in], [js_get] and [js_put]
    are the operations of JavaScript, and a statement that depends on what
    a key holds, or on an assignment going through, is made for the paths
    whose segments are none of these names ([own_path]).  The static path
    types [DeepKeyOf] and [DeepValueOf] are erased: every operation takes
    any value and any string.

    Objects are shared by reference, so the operations run in a monad that
    threads the heap, raises the exceptions JavaScript raises, and bounds
    the recursion of scan by a fuel. *)

From Stdlib Require Import String Ascii ZArith List Bool Lia.
From stdpp Require Import base list strings.
Import ListNotations.
Open Scope string_scope.
Open Scope list_scope.

(** ** Values and the object heap *)

Abbreviation loc := nat.

Inductive jsvalue : Type :=
  | VUndefined
  | VNull
  | VBool (b : bool)
  | VNumber (n : Z)
  | VString (s : string)
  | VObject (l : loc).

#[global] Instance jsvalue_eq_dec : EqDecision jsvalue.
Proof. solve_decision. Defined.

(** The own properties of one object, and the heap: object [l] is the
    [l]-th entry, read with [h !!! l]. A location past the end of the heap
    reads as an object without properties and takes no assignment; [closed]
    below states that no such reference is stored. *)
Abbreviation props := (list (string * jsvalue)).
Abbreviation heap := (list (list (string * jsvalue))).

(** The result of [typeof]. Functions, symbols and bigints are not modelled. *)
Inductive jstype := TUndefined | TObject | TBoolean | TNumber | TString.

(** [===] on the results of [typeof] *)
Definition jstype_eqb (a b : jstype) : bool :=
  match a, b with
  | TUndefined, TUndefined | TObject, TObject | TBoolean, TBoolean
  | TNumber, TNumber | TString, TString => true
  | _, _ => false
  end.

Definition typeof (v : jsvalue) : jstype :=
  match v with
  | VUndefined => TUndefined
  | VNull => TObject
  | VBool _ => TBoolean
  | VNumber _ => TNumber
  | VString _ => TString
  | VObject _ => TObject
  end.

Definition is_null (v : jsvalue) : bool :=
  match v with VNull => true | _ => false end.

(** ToBoolean *)
Definition truthy (v : jsvalue) : bool :=
  match v with
  | VUndefined | VNull => false
  | VBool b => b
  | VNumber n => negb (n =? 0)%Z
  | VString s => negb (s =? "")
  | VObject _ => true
  end.

(** ** Own properties, in enumeration order *)

Definition digit_of (c : ascii) : option N :=
  let n := N_of_ascii c in
  if ((48 <=? n) && (n <=? 57))%N then Some (n - 48)%N else None.

Fixpoint parse_digits (acc : N) (s : string) : option N :=
  match s with
  | EmptyString => Some acc
  | String c s' =>
      match digit_of c with
      | Some d => parse_digits (acc * 10 + d)%N s'
      | None => None
      end
  end.

(** A key is an array index when it is the canonical decimal form of an
    integer below 2^32 - 1. *)
Definition array_index (k : string) : option N :=
  match k with
  | EmptyString => None
  | String c rest =>
      if (Ascii.eqb c "0" && negb (rest =? ""))%bool then None
      else match parse_digits 0 k with
           | Some n => if (n <=? 4294967294)%N then Some n else None
           | None => None
           end
  end.

Fixpoint prop_lookup (k : string) (o : props) : option jsvalue :=
  match o with
  | [] => None
  | (k', v) :: o' => if k =? k' then Some v else prop_lookup k o'
  end.

Definition prop_mem (k : string) (o : props) : bool :=
  match prop_lookup k o with Some _ => true | None => false end.

Fixpoint prop_update (k : string) (v : jsvalue) (o : props) : props :=
  match o with
  | [] => []
  | (k', v') :: o' =>
      if k =? k' then (k, v) :: o' else (k', v') :: prop_update k v o'
  end.

(** Position of a new index key: after the smaller indices, before the
    larger ones and before every non-index key. *)
Fixpoint prop_insert_index (n : N) (k : string) (v : jsvalue) (o : props) : props :=
  match o with
  | [] => [(k, v)]
  | (k', v') :: o' =>
      match array_index k' with
      | Some m =>
          if (m <? n)%N then (k', v') :: prop_insert_index n k v o'
          else (k, v) :: o
      | None => (k, v) :: o
      end
  end.

(** [o[k] = v] on the property list. *)
Definition prop_put (k : string) (v : jsvalue) (o : props) : props :=
  if prop_mem k o then prop_update k v o
  else match array_index k with
       | Some n => prop_insert_index n k v o
       | None => o ++ [(k, v)]
       end.

(** ** The computation monad: heap state, exceptions, fuel *)

Inductive exn := TypeError.

Inductive outcome (A : Type) : Type :=
  | Ok (a : A)
  | Throw (e : exn)
  | OutOfFuel.
Arguments Ok {A} a.
Arguments Throw {A} e.
Arguments OutOfFuel {A}.

Definition M (A : Type) : Type := heap -> outcome (A * heap).

Definition ret {A} (a : A) : M A := fun h => Ok (a, h).

Definition bind {A B} (m : M A) (f : A -> M B) : M B :=
  fun h =>
    match m h with
    | Ok (a, h') => f a h'
    | Throw e => Throw e
    | OutOfFuel => OutOfFuel
    end.

Definition throw {A} (e : exn) : M A := fun _ => Throw e.
Definition out_of_fuel {A} : M A := fun _ => OutOfFuel.

Notation "'do' x <- m ; k" := (bind m (fun x => k))
  (at level 10, x name, m at level 100, k at level 200).
Notation "'run' m ; k" := (bind m (fun _ => k))
  (at level 10, m at level 100, k at level 200).

(** A [for (const x of xs)] loop threading an accumulator. *)
Fixpoint for_of {A S} (xs : list A) (body : S -> A -> M S) (s : S) : M S :=
  match xs with
  | [] => ret s
  | x :: xs' => do s' <- body s x; for_of xs' body s'
  end.

(** ** Primitive object operations *)

(** [key in v]: a TypeError unless [v] is an object. The own properties
    are looked at; this is [in] for a key that no prototype answers
    ([own_key] below). *)
Definition js_in (key : string) (v : jsvalue) : M bool :=
  match v with
  | VObject l => fun h => Ok (prop_mem key (h !!! l), h)
  | _ => throw TypeError
  end.

(** [v[key]]: a TypeError on undefined and null; the properties of the
    other primitives are not modelled and read as undefined. The own
    properties are read; this is the property read for a key that no
    prototype answers ([own_key] below). *)
Definition js_get (v : jsvalue) (key : string) : M jsvalue :=
  match v with
  | VObject l =>
      fun h => Ok (default VUndefined (prop_lookup key (h !!! l)), h)
  | VUndefined | VNull => throw TypeError
  | _ => ret VUndefined
  end.

(** [v[key] = x] (strict mode): a TypeError unless [v] is an object. A
    plain store into the own properties; the assignments to the [length]
    of an array and to [__proto__], which are no plain stores, are left
    out with the other names of [prototype_keys]. *)
Definition js_put (v : jsvalue) (key : string) (x : jsvalue) : M unit :=
  match v with
  | VObject l => fun h => Ok (tt, <[l := prop_put key x (h !!! l)]> h)
  | _ => throw TypeError
  end.

(** The object literal [{}]. *)
Definition js_new : M jsvalue :=
  fun h => Ok (VObject (length h), h ++ [[]]).

(** [Object.entries(v)] *)
Definition js_entries (v : jsvalue) : M (list (string * jsvalue)) :=
  match v with
  | VObject l => fun h => Ok (h !!! l, h)
  | VUndefined | VNull => throw TypeError
  | _ => ret []
  end.

(** ** Strings and paths *)

(** [s.split(sep)] for a one-character separator. *)
Fixpoint split (sep : ascii) (s : string) : list string :=
  match s with
  | EmptyString => [EmptyString]
  | String c s' =>
      if Ascii.eqb c sep then EmptyString :: split sep s'
      else match split sep s' with
           | [] => [String c EmptyString]
           | w :: ws => String c w :: ws
           end
  end.

Definition nonempty (s : string) : bool := negb (s =? "").

(** [xs[xs.length - 1]] used as a property key: undefined past the ends,
    and undefined as a key is the string "undefined". *)
Definition last_key (xs : list string) : string :=
  match last xs with Some k => k | None => "undefined" end.

(** ** Keys that the prototypes answer

    [key in v], [v[key]] and [v[key] = x] look past the own enumerable
    properties of [v] for the names below: those [Object.prototype] and
    [Array.prototype] define (ECMAScript 2023 with its Annex B), the
    accessor [__proto__] among them, and [length], the own non-enumerable
    property of every array. There [in] is true and the read returns what
    the prototype holds without the object owning the key, an assignment
    to the [length] of an array raises a RangeError or truncates the
    array, and an assignment to [__proto__] replaces the prototype or is
    ignored. *)
Definition prototype_keys : list string :=
  [ "constructor"; "__defineGetter__"; "__defineSetter__"; "hasOwnProperty";
    "__lookupGetter__"; "__lookupSetter__"; "isPrototypeOf";
    "propertyIsEnumerable"; "toString"; "valueOf"; "__proto__";
    "toLocaleString";
    "length"; "at"; "concat"; "copyWithin"; "fill"; "find"; "findIndex";
    "findLast"; "findLastIndex"; "lastIndexOf"; "pop"; "push"; "reverse";
    "shift"; "unshift"; "slice"; "sort"; "splice"; "includes"; "indexOf";
    "join"; "keys"; "entries"; "values"; "forEach"; "filter"; "flatMap";
    "flat"; "map"; "every"; "some"; "reduce"; "reduceRight"; "toReversed";
    "toSorted"; "toSpliced"; "with" ].

(** A key that only an own property can answer. *)
Definition own_key (k : string) : bool :=
  negb (existsb (String.eqb k) prototype_keys).

(** A path whose segments, as [split] cuts them, are such keys. *)
Definition own_path (path : string) : bool :=
  forallb own_key (split "." path).

(** ** The JavaScript [Map] returned by scan: insertion ordered *)

Abbreviation jsmap := (list (string * jsvalue)).

Fixpoint map_set (k : string) (v : jsvalue) (m : jsmap) : jsmap :=
  match m with
  | [] => [(k, v)]
  | (k', v') :: m' =>
      if k =? k' then (k, v) :: m' else (k', v') :: map_set k v m'
  end.

Definition map_get (k : string) (m : jsmap) : option jsvalue := prop_lookup k m.
Definition map_has (k : string) (m : jsmap) : bool := prop_mem k m.

(** ** The module *)

Module Objmod.

(** The guard of get and has:
    [typeof value !== "object" || value === null || !(key in value)],
    evaluated left to right with short circuit. *)
Definition unresolved (value : jsvalue) (key : string) : M bool :=
  if negb (jstype_eqb (typeof value) TObject) then ret true
  else if is_null value then ret true
  else do present <- js_in key value; ret (negb present).

Fixpoint get_loop (address : list string) (value def : jsvalue) : M jsvalue :=
  match address with
  | [] => ret value
  | key :: rest =>
      do stop <- unresolved value key;
      if stop then ret def
      else do next <- js_get value key; get_loop rest next def
  end.

(** [get(obj, path, def)]; an omitted [def] is [VUndefined]. *)
Definition get (obj : jsvalue) (path : string) (def : jsvalue) : M jsvalue :=
  let address := split "." path in
  get_loop address obj def.

(** The test of set on the next container:
    [typeof value[key] !== "object" || value[key] === null]. *)
Definition not_container (value : jsvalue) (key : string) : M bool :=
  do child <- js_get value key;
  if negb (jstype_eqb (typeof child) TObject) then ret true
  else do child' <- js_get value key; ret (is_null child').

Fixpoint set_loop (address : list string) (value : jsvalue) : M jsvalue :=
  match address with
  | [] => ret value
  | key :: rest =>
      do fresh <- not_container value key;
      run (if fresh
           then do o <- js_new; js_put value key o
           else ret tt);
      do next <- js_get value key;
      set_loop rest next
  end.

(** [set(obj, path, val)]: the result is [false] on the empty path and
    undefined, the value of a function that ends without [return],
    otherwise. *)
Definition set (obj : jsvalue) (path : string) (val : jsvalue) : M jsvalue :=
  if negb (nonempty path) then ret (VBool false)
  else
    let address := List.filter nonempty (split "." path) in
    do value <- set_loop address obj;
    let lastKey := last_key address in
    run js_put value lastKey val;
    ret VUndefined.

Fixpoint has_loop (address : list string) (value : jsvalue) : M bool :=
  match address with
  | [] => ret true
  | key :: rest =>
      do stop <- unresolved value key;
      if stop then ret false
      else do next <- js_get value key; has_loop rest next
  end.

Definition has (obj : jsvalue) (path : string) : M bool :=
  let address := split "." path in
  has_loop address obj.

(** The guard of del:
    [!(key in value) || typeof value[key] !== "object" || value[key] === null]. *)
Definition not_walkable (value : jsvalue) (key : string) : M bool :=
  do present <- js_in key value;
  if negb present then ret true
  else
    do child <- js_get value key;
    if negb (jstype_eqb (typeof child) TObject) then ret true
    else do child' <- js_get value key; ret (is_null child').

(** The loop of del either leaves the function ([None], the early
    [return undefined]) or ends on a container. *)
Fixpoint del_loop (address : list string) (value : jsvalue) : M (option jsvalue) :=
  match address with
  | [] => ret (Some value)
  | key :: rest =>
      do stop <- not_walkable value key;
      if stop then ret None
      else do next <- js_get value key; del_loop rest next
  end.

Definition del (obj : jsvalue) (path : string) : M jsvalue :=
  let address := split "." path in
  do walked <- del_loop address obj;
  match walked with
  | None => ret VUndefined
  | Some value =>
      let lastKey := last_key address in
      do target <- js_get value lastKey;
      run js_put value lastKey VUndefined;
      ret target
  end.

(** [scan(obj, prefix, map)]. The recursion follows the object graph, so it
    is bounded by [fuel]: the depth of nested calls. *)
Fixpoint scan (fuel : nat) (obj : jsvalue) (prefix : string) (map : jsmap)
  : M jsmap :=
  match fuel with
  | O => out_of_fuel
  | S fuel' =>
      do entries <- js_entries obj;
      for_of entries
        (fun map '(key, value) =>
           let path := if nonempty prefix then prefix +:+ "." +:+ key else key in
           let map := map_set path value map in
           if truthy value && jstype_eqb (typeof value) TObject
           then scan fuel' value path map
           else ret map)
        map
  end.

(** [m.forEach((value, path) => f(value, path))] *)
Definition for_each (m : jsmap) (f : jsvalue -> string -> M unit) : M unit :=
  for_of m (fun _ '(path, value) => f value path) tt.

Definition merge (fuel : nat) (target source : jsvalue) : M jsvalue :=
  do map <- scan fuel source "" [];
  run for_each map (fun value path => run set target path value; ret tt);
  ret target.

(** [foreach(obj, func)]: the result of the callback is dropped. *)
Definition foreach (fuel : nat) (obj : jsvalue)
  (func : string -> jsvalue -> M jsvalue) : M unit :=
  do map <- scan fuel obj "" [];
  for_each map (fun value path => run func path value; ret tt).

Definition map (fuel : nat) (obj : jsvalue) (func : string -> jsvalue -> M jsvalue)
  : M unit :=
  do map <- scan fuel obj "" [];
  for_each map
    (fun value path =>
       do new <- func path value;
       run set obj path new;
       ret tt).

Definition filter (fuel : nat) (obj : jsvalue) (func : string -> jsvalue -> M bool)
  : M unit :=
  do map <- scan fuel obj "" [];
  for_each map
    (fun value path =>
       do keep <- func path value;
       if keep then ret tt else run del obj path; ret tt).

(** The closure returned by [cache(obj)]: the wrapped object and the
    captured [map], which [_get], [_set] and [_refresh] update. *)
Record cache_t := { c_obj : jsvalue; c_map : jsmap }.

Definition cache (fuel : nat) (obj : jsvalue) : M cache_t :=
  do map <- scan fuel obj "" [];
  ret {| c_obj := obj; c_map := map |}.

Definition cache_get (c : cache_t) (path : string) (def : jsvalue)
  : M (jsvalue * cache_t) :=
  if map_has path (c_map c)
  then ret (default VUndefined (map_get path (c_map c)), c)
  else
    do value <- get (c_obj c) path def;
    ret (value, {| c_obj := c_obj c; c_map := map_set path value (c_map c) |}).

Definition cache_set (c : cache_t) (path : string) (value : jsvalue)
  : M (jsvalue * cache_t) :=
  let map := map_set path value (c_map c) in
  do r <- set (c_obj c) path value;
  ret (r, {| c_obj := c_obj c; c_map := map |}).

Definition cache_has (c : cache_t) (path : string) : bool :=
  map_has path (c_map c).

Definition cache_refresh (fuel : nat) (c : cache_t) : M cache_t :=
  let cleared : jsmap := [] in
  do scanned <- scan fuel (c_obj c) "" [];
  do map <- for_of scanned
              (fun map '(path, value) => ret (map_set path value map))
              cleared;
  ret {| c_obj := c_obj c; c_map := map |}.

End Objmod.

(** ** The older module kept beside it: get, set and has only *)

Module Legacy.

Fixpoint get_loop (address : list string) (value def : jsvalue) : M jsvalue :=
  match address with
  | [] => ret value
  | key :: rest =>
      do stop <- Objmod.unresolved value key;
      if stop then ret def
      else do next <- js_get value key; get_loop rest next def
  end.

Definition get (obj : jsvalue) (path : string) (def : jsvalue) : M jsvalue :=
  let address := split "." path in
  get_loop address obj def.

(** [for (let i = 0; i < address.length - 1; i++)]: [count] iterations
    are left, [i] is the index, and [address[i]] out of range would be
    undefined, the key "undefined". *)
Fixpoint set_walk (count i : nat) (address : list string) (value : jsvalue)
  : M jsvalue :=
  match count with
  | O => ret value
  | S count' =>
      let key := default "undefined" (address !! i) in
      do fresh <- Objmod.not_container value key;
      run (if fresh
           then do o <- js_new; js_put value key o
           else ret tt);
      do next <- js_get value key;
      set_walk count' (S i) address next
  end.

Definition set (obj : jsvalue) (path : string) (val : jsvalue) : M jsvalue :=
  if negb (nonempty path) then ret (VBool false)
  else
    let address := List.filter nonempty (split "." path) in
    if (length address =? 0)%nat then ret (VBool false)
    else
      do value <- set_walk (length address - 1) 0 address obj;
      let lastKey := last_key address in
      run js_put value lastKey val;
      ret (VBool true).

Fixpoint has_loop (address : list string) (value : jsvalue) : M bool :=
  match address with
  | [] => ret true
  | key :: rest =>
      do stop <- Objmod.unresolved value key;
      if stop then ret false
      else do next <- js_get value key; has_loop rest next
  end.

Definition has (obj : jsvalue) (path : string) : M bool :=
  let address := split "." path in
  has_loop address obj.

End Legacy.

(** ** Reference notions used in the statements *)

(** What it means for a path to resolve, in the words of the
    specification: following the segments from a value, each step needs a
    container that has the segment among its keys. *)
Fixpoint resolve (h : heap) (segments : list string) (v : jsvalue)
  : option jsvalue :=
  match segments with
  | [] => Some v
  | k :: rest =>
      match v with
      | VObject l =>
          match prop_lookup k (h !!! l) with
          | Some child => resolve h rest child
          | None => None
          end
      | _ => None
      end
  end.

Definition is_container (v : jsvalue) : bool :=
  match v with VObject _ => true | _ => false end.

(** The objects below [v] unfold to a finite tree of depth at most [n]:
    every chain of properties reaches a non-container within [n] steps.
    Objects may be shared; a cycle below [v] has no such [n]. *)
Fixpoint finite_depth (n : nat) (h : heap) (v : jsvalue) : bool :=
  match v with
  | VObject l =>
      match n with
      | O => false
      | S n' => forallb (fun kv => finite_depth n' h kv.2) (h !!! l)
      end
  | _ => true
  end.

Definition join_path (prefix key : string) : string :=
  if nonempty prefix then prefix +:+ "." +:+ key else key.

(** The enumeration as the specification words it: depth first, for each
    key of the container in its own order the entry of the child, then,
    when the child is a container, the entries below it. *)
Fixpoint spec_preorder (n : nat) (h : heap) (prefix : string) (v : jsvalue)
  : list (string * jsvalue) :=
  match n with
  | O => []
  | S n' =>
      match v with
      | VObject l =>
          flat_map
            (fun kv =>
               let path := join_path prefix kv.1 in
               (path, kv.2) :: spec_preorder n' h path kv.2)
            (h !!! l)
      | _ => []
      end
  end.

(** The entries [spec_preorder] lists for one child: its own, then those
    below it. *)
Definition child_entries (n : nat) (h : heap) (prefix : string)
  (kv : string * jsvalue) : list (string * jsvalue) :=
  (join_path prefix kv.1, kv.2) :: spec_preorder n h (join_path prefix kv.1) kv.2.

(** Writing a sequence of entries into a [Map], in order. *)
Definition map_set_all (entries : list (string * jsvalue)) (m : jsmap) : jsmap :=
  fold_left (fun m kv => map_set kv.1 kv.2 m) entries m.

Fixpoint dot_free (s : string) : bool :=
  match s with
  | EmptyString => true
  | String c s' => negb (Ascii.eqb c ".") && dot_free s'
  end.

Definition plain_key (k : string) : bool := nonempty k && dot_free k.

Fixpoint distinct (ks : list string) : bool :=
  match ks with
  | [] => true
  | k :: ks' => negb (existsb (String.eqb k) ks') && distinct ks'
  end.

(** Every object within depth [n] below [v] has pairwise distinct keys,
    none of them empty and none containing the separator. *)
Fixpoint plain_keys (n : nat) (h : heap) (v : jsvalue) : bool :=
  match n with
  | O => true
  | S n' =>
      match v with
      | VObject l =>
          distinct (List.map fst (h !!! l))
          && forallb (fun kv => plain_key kv.1 && plain_keys n' h kv.2) (h !!! l)
      | _ => true
      end
  end.

(** The container the loop of del ends on, when it does. *)
Definition walk_target (h : heap) (address : list string) (v : jsvalue)
  : option jsvalue :=
  match resolve h address v with
  | Some (VObject c) => Some (VObject c)
  | _ => None
  end.

(** Every reference stored in the heap points into the heap. *)
Definition closed (h : heap) : bool :=
  forallb
    (fun o : props =>
       forallb
         (fun kv => match kv.2 with
                    | VObject b => (b <? length h)%nat
                    | _ => true
                    end) o) h.

(** A value that is a reference points into the heap. *)
Definition points_inside (h : heap) (v : jsvalue) : bool :=
  match v with
  | VObject b => (b <? length h)%nat
  | _ => true
  end.

(** References read from the heap point into it. *)
Definition refs_inside (h : heap) : Prop :=
  forall a k b, prop_lookup k (h !!! a) = Some (VObject b) -> b < length h.

(** Properties holding a container keep it. *)
Definition keeps_containers (h h' : heap) : Prop :=
  forall a k b,
    prop_lookup k (h !!! a) = Some (VObject b) ->
    prop_lookup k (h' !!! a) = Some (VObject b).

(** Finite depths grow by [d] at most from [h] to [h']. *)
Definition deepens (d : nat) (h h' : heap) : Prop :=
  forall m v, finite_depth m h v = true -> finite_depth (m + d) h' v = true.

(** No object loses a key from [h] to [h']. *)
Definition keeps_keys (h h' : heap) : Prop :=
  forall a k, prop_mem k (h !!! a) = true -> prop_mem k (h' !!! a) = true.

(** Every path enumerated within depth [n] below [v] is an [own_path]:
    the bulk operations call set and del on these paths. *)
Definition own_paths (n : nat) (h : heap) (v : jsvalue) : bool :=
  forallb (fun kv => own_path kv.1) (spec_preorder n h "" v).

(** [".k1.k2..."], the tail of a dotted path. *)
Fixpoint dotted (ks : list string) : string :=
  match ks with
  | [] => ""
  | k :: ks' => "." +:+ k +:+ dotted ks'
  end.

(** The path scan builds for the keys [ks] met below [prefix]. *)
Definition path_of (prefix : string) (ks : list string) : string :=
  fold_left join_path ks prefix.

(** The segments a path stands for; the empty prefix stands for none. *)
Definition segments_of (path : string) : list string :=
  if nonempty path then split "." path else [].

(** The body of the loop of scan, for a given depth of recursion left. *)
Definition scan_step (fuel : nat) (prefix : string)
  (m : jsmap) (kv : string * jsvalue) : M jsmap :=
  let path := join_path prefix kv.1 in
  if is_container kv.2
  then Objmod.scan fuel kv.2 path (map_set path kv.2 m)
  else ret (map_set path kv.2 m).

(** ** Objects of the documentation *)

(** [{name:"mahdi", city:{name:"mashhad", code:"051"}}] at location 0. *)
Definition city_heap : heap :=
  [ [("name", VString "mahdi"); ("city", VObject 1)];
    [("name", VString "mashhad"); ("code", VString "051")] ].

(** The object of the examples at location 0:
    [{name:"mahdi", age:21, skills:["js","ts","html"],
      city:{name:"mashhad", code:"051"}}]. *)
Definition example_heap : heap :=
  [ [("name", VString "mahdi"); ("age", VNumber 21);
     ("skills", VObject 1); ("city", VObject 2)];
    [("0", VString "js"); ("1", VString "ts"); ("2", VString "html")];
    [("name", VString "mashhad"); ("code", VString "051")] ].

(** The arguments of the documented [merge({ a: 1 }, { b: { c: 2 } })]:
    the target at location 0, the source at location 1. *)
Definition merge_heap : heap :=
  [ [("a", VNumber 1)]; [("b", VObject 2)]; [("c", VNumber 2)] ].

(** A target [{a: 1}] at location 0 and a source [{a: 2}] at location 1. *)
Definition clash_heap : heap := [ [("a", VNumber 1)]; [("a", VNumber 2)] ].

(** [example_heap] after the direct assignment [obj.name = "amir"]. *)
Definition renamed_heap : heap :=
  [ [("name", VString "amir"); ("age", VNumber 21);
     ("skills", VObject 1); ("city", VObject 2)];
    [("0", VString "js"); ("1", VString "ts"); ("2", VString "html")];
    [("name", VString "mashhad"); ("code", VString "051")] ].

(** The callback [(path, value) => value]. *)
Definition identity (path : string) (value : jsvalue) : M jsvalue := ret value.

(** ** Read operations *)

Section Reads.

Variable h : heap.

Lemma get_loop_resolve address :
  forall value def,
    Objmod.get_loop address value def h
    = Ok (default def (resolve h address value), h).
Proof.
  induction address as [|key rest IH]; intros value def; [reflexivity|].
  destruct value; try reflexivity.
  cbn [Objmod.get_loop resolve].
  unfold bind, Objmod.unresolved, js_in, prop_mem; cbn.
  destruct (prop_lookup key (h !!! l)) as [child|] eqn:Hk; cbn; [|reflexivity].
  unfold js_get. rewrite Hk. cbn. apply IH.
Qed.

Lemma has_loop_resolve address :
  forall value,
    Objmod.has_loop address value h
    = Ok (bool_decide (is_Some (resolve h address value)), h).
Proof.
  induction address as [|key rest IH]; intros value; [reflexivity|].
  destruct value; try reflexivity.
  cbn [Objmod.has_loop resolve].
  unfold bind, Objmod.unresolved, js_in, prop_mem; cbn.
  destruct (prop_lookup key (h !!! l)) as [child|] eqn:Hk; cbn; [|reflexivity].
  unfold js_get. rewrite Hk. cbn. apply IH.
Qed.

Lemma get_resolve r p d :
  Objmod.get r p d h = Ok (default d (resolve h (split "." p) r), h).
Proof. apply get_loop_resolve. Qed.

End Reads.

(** ** Objects with distinct keys, and lookups in a [Map] *)

Section Lookups.

Lemma prop_lookup_in k v (o : props) :
  prop_lookup k o = Some v -> In (k, v) o.
Proof.
  induction o as [|[k' v'] o IH]; cbn; [discriminate|].
  destruct (String.eqb_spec k k') as [->|Hne].
  - intros [= ->]. now left.
  - intros H. right. auto.
Qed.

Lemma prop_lookup_distinct k v (o : props) :
  distinct (List.map fst o) = true -> In (k, v) o -> prop_lookup k o = Some v.
Proof.
  induction o as [|[k' v'] o IH]; cbn; [easy|].
  intros [Hfresh Hd]%andb_true_iff [[= -> ->]|Hin].
  - now rewrite String.eqb_refl.
  - destruct (String.eqb_spec k k') as [->|Hne]; [|auto].
    exfalso. apply negb_true_iff in Hfresh.
    assert (existsb (String.eqb k') (List.map fst o) = true); [|congruence].
    apply existsb_exists. exists k'. split; [|apply String.eqb_refl].
    change k' with (fst (k', v)). now apply in_map.
Qed.

Lemma map_set_in k v e (m : jsmap) :
  In e (map_set k v m) -> e = (k, v) \/ In e m.
Proof.
  induction m as [|[k' v'] m IH]; cbn.
  - intros [<-|[]]. now left.
  - destruct (k =? k'); cbn; intros [<-|Hin]; auto.
    destruct (IH Hin); auto.
Qed.

Lemma map_set_all_in e entries :
  forall m : jsmap, In e (map_set_all entries m) -> In e entries \/ In e m.
Proof.
  induction entries as [|[k v] entries IH]; intros m; cbn; [auto|].
  intros Hin. destruct (IH _ Hin) as [?|Hm]; [auto|].
  destruct (map_set_in _ _ _ _ Hm) as [->|?]; auto.
Qed.

End Lookups.

(** ** Property lists *)

Section Properties.

Lemma prop_update_lookup k v (o : props) k' :
  prop_lookup k' (prop_update k v o)
  = if (k' =? k) && prop_mem k o then Some v else prop_lookup k' o.
Proof.
  unfold prop_mem.
  induction o as [|[k0 v0] o IH]; cbn; [now rewrite andb_false_r|].
  destruct (String.eqb_spec k k0) as [->|Hne]; cbn.
  - destruct (String.eqb_spec k' k0); reflexivity.
  - rewrite IH. destruct (String.eqb_spec k' k) as [Heq|Hne']; cbn.
    + subst k'. destruct (String.eqb_spec k k0); [contradiction|reflexivity].
    + reflexivity.
Qed.

Lemma prop_insert_index_lookup n k v (o : props) k' :
  prop_lookup k o = None ->
  prop_lookup k' (prop_insert_index n k v o)
  = if k' =? k then Some v else prop_lookup k' o.
Proof.
  induction o as [|[k0 v0] o IH]; cbn; [reflexivity|].
  destruct (String.eqb_spec k k0) as [->|Hne]; [discriminate|]. intros Hk.
  destruct (array_index k0) as [m|]; [destruct (m <? n)%N|]; cbn;
    try reflexivity.
  rewrite (IH Hk).
  destruct (String.eqb_spec k' k0) as [->|]; [|reflexivity].
  destruct (String.eqb_spec k0 k); [congruence|reflexivity].
Qed.

Lemma prop_append_lookup k v (o : props) k' :
  prop_lookup k o = None ->
  prop_lookup k' (o ++ [(k, v)]) = if k' =? k then Some v else prop_lookup k' o.
Proof.
  induction o as [|[k0 v0] o IH]; cbn; [reflexivity|].
  destruct (String.eqb_spec k k0) as [->|Hne]; [discriminate|]. intros Hk.
  rewrite (IH Hk).
  destruct (String.eqb_spec k' k0) as [->|]; [|reflexivity].
  destruct (String.eqb_spec k0 k); [congruence|reflexivity].
Qed.

(** Reading after [o[k] = v]. *)
Lemma prop_put_lookup k v (o : props) k' :
  prop_lookup k' (prop_put k v o) = if k' =? k then Some v else prop_lookup k' o.
Proof.
  unfold prop_put. destruct (prop_mem k o) eqn:Hmem.
  - rewrite prop_update_lookup, Hmem. now rewrite andb_true_r.
  - unfold prop_mem in Hmem.
    destruct (prop_lookup k o) eqn:Hk; [discriminate|].
    destruct (array_index k);
      [now apply prop_insert_index_lookup|now apply prop_append_lookup].
Qed.

Lemma prop_update_same k v (o : props) :
  prop_lookup k o = Some v -> prop_update k v o = o.
Proof.
  induction o as [|[k0 v0] o IH]; cbn; [reflexivity|].
  destruct (String.eqb_spec k k0) as [->|Hne].
  - now intros [= ->].
  - intros Hk. now rewrite (IH Hk).
Qed.

(** Assigning twice the same value to a key is assigning it once. *)
Lemma prop_put_again k v (o : props) :
  prop_put k v (prop_put k v o) = prop_put k v o.
Proof.
  assert (Hk : prop_lookup k (prop_put k v o) = Some v).
  { now rewrite prop_put_lookup, String.eqb_refl. }
  unfold prop_put at 1. unfold prop_mem. rewrite Hk.
  now apply prop_update_same.
Qed.

End Properties.

(** ** Write operations *)

Section Writes.

Lemma del_loop_resolve address :
  forall l (h : heap),
    Objmod.del_loop address (VObject l) h
    = Ok (walk_target h address (VObject l), h).
Proof.
  induction address as [|key rest IH]; intros l h; [reflexivity|].
  cbn [Objmod.del_loop]. unfold walk_target. cbn [resolve].
  unfold bind, Objmod.not_walkable, js_in, js_get, prop_mem. cbn.
  destruct (prop_lookup key (h !!! l)) as [child|] eqn:Hk; cbn; [|reflexivity].
  rewrite ?Hk. cbn.
  destruct child as [| |b|z|s|c]; cbn; rewrite ?Hk; cbn;
    try (destruct rest; reflexivity).
  rewrite Hk. apply IH.
Qed.

Lemma del_effect (h : heap) l p :
  Objmod.del (VObject l) p h
  = match walk_target h (split "." p) (VObject l) with
    | Some (VObject c) =>
        let k := last_key (split "." p) in
        Ok (default VUndefined (prop_lookup k (h !!! c)),
            <[c := prop_put k VUndefined (h !!! c)]> h)
    | _ => Ok (VUndefined, h)
    end.
Proof.
  unfold Objmod.del, bind. rewrite del_loop_resolve. unfold walk_target.
  destruct (resolve h (split "." p) (VObject l)) as [[| |b|z|s|c]|]; reflexivity.
Qed.

Lemma set_result (h : heap) obj p v :
  match Objmod.set obj p v h with
  | Ok (r, _) => r = if nonempty p then VUndefined else VBool false
  | _ => True
  end.
Proof.
  unfold Objmod.set. destruct (nonempty p); [|reflexivity]. cbn [negb].
  unfold bind.
  destruct (Objmod.set_loop _ obj h) as [[value h1]| |]; [|exact I..].
  destruct (js_put value _ v h1) as [[u h2]| |]; [reflexivity|exact I..].
Qed.

End Writes.

(** ** Depth of the object graph *)

Section Depth.

Variable h : heap.

Lemma finite_depth_child n a k child :
  finite_depth (S n) h (VObject a) = true ->
  prop_lookup k (h !!! a) = Some child ->
  finite_depth n h child = true.
Proof.
  cbn [finite_depth]. rewrite forallb_forall. intros Hall Hk.
  apply (Hall (k, child)). now apply prop_lookup_in.
Qed.

(** Walking down consumes depth. *)
Lemma depth_along ks :
  forall n v c,
    finite_depth n h v = true ->
    resolve h ks v = Some (VObject c) ->
    length ks < n /\ finite_depth (n - length ks) h (VObject c) = true.
Proof.
  induction ks as [|k ks IH]; intros n v c Hdepth Hres.
  - injection Hres as ->. destruct n; [discriminate|].
    split; [cbn; lia|]. now rewrite Nat.sub_0_r.
  - cbn [resolve] in Hres. destruct v as [| |b|z|s|a]; try discriminate.
    destruct (prop_lookup k (h !!! a)) as [child|] eqn:Hk; [|discriminate].
    destruct n as [|n]; [discriminate|].
    destruct (IH n child c (finite_depth_child _ _ _ _ Hdepth Hk) Hres)
      as [Hlen Hc].
    split; [cbn; lia|exact Hc].
Qed.

(** No object of finite depth is below itself. *)
Lemma no_cycle n :
  forall a ks,
    finite_depth n h (VObject a) = true ->
    resolve h ks (VObject a) = Some (VObject a) ->
    ks = [].
Proof.
  induction n as [n IH] using lt_wf_ind. intros a ks Hdepth Hres.
  destruct ks as [|k ks]; [reflexivity|]. exfalso.
  destruct (depth_along _ _ _ _ Hdepth Hres) as [Hlen Hdepth'].
  cbn [length] in *.
  pose proof (IH (n - S (length ks)) ltac:(lia) a (k :: ks) Hdepth' Hres).
  discriminate.
Qed.

Lemma finite_depth_mono n :
  forall m v, n <= m -> finite_depth n h v = true -> finite_depth m h v = true.
Proof.
  induction n as [|n IH]; intros m v Hle Hdepth.
  - destruct v; try discriminate; destruct m; reflexivity.
  - destruct v as [| |b|z|s|a]; try (destruct m; reflexivity).
    destruct m as [|m]; [lia|]. cbn [finite_depth] in *.
    rewrite forallb_forall in *. intros kv Hin. apply IH; [lia|auto].
Qed.

End Depth.

(** ** Allocation and assignment *)

Section Allocation.

Lemma closed_refs_inside h : closed h = true -> refs_inside h.
Proof.
  intros Hc a k b Hk. unfold closed in Hc. rewrite forallb_forall in Hc.
  apply prop_lookup_in in Hk.
  destruct (h !! a) as [o|] eqn:Ha.
  - rewrite list_lookup_total_alt, Ha in Hk. cbn in Hk.
    assert (Ho : In o h).
    { apply list_elem_of_In. eapply list_elem_of_lookup_2; eauto. }
    specialize (Hc _ Ho). rewrite forallb_forall in Hc.
    specialize (Hc _ Hk). cbn in Hc. now apply Nat.ltb_lt in Hc.
  - rewrite list_lookup_total_alt, Ha in Hk. destruct Hk.
Qed.

Lemma alloc_lookup (h : heap) a : (h ++ [[]]) !!! a = h !!! a.
Proof.
  rewrite !list_lookup_total_alt.
  destruct (decide (a < length h)) as [Hlt|Hge].
  - now rewrite lookup_app_l.
  - rewrite (lookup_ge_None_2 h) by lia.
    rewrite lookup_app_r by lia.
    destruct (a - length h) as [|[|i]]; reflexivity.
Qed.

Lemma prop_update_in e k v (o : props) :
  In e (prop_update k v o) -> e = (k, v) \/ In e o.
Proof.
  induction o as [|[k0 v0] o IH]; cbn; [auto|].
  destruct (k =? k0); cbn; intros [<-|Hin]; auto.
  destruct (IH Hin); auto.
Qed.

Lemma prop_insert_index_in e n k v (o : props) :
  In e (prop_insert_index n k v o) -> e = (k, v) \/ In e o.
Proof.
  induction o as [|[k0 v0] o IH]; cbn; [intros [<-|[]]; auto|].
  destruct (array_index k0) as [m|]; [destruct (m <? n)%N|]; cbn;
    intros [<-|Hin]; auto.
  destruct (IH Hin); auto.
Qed.

Lemma prop_put_in e k v (o : props) :
  In e (prop_put k v o) -> e = (k, v) \/ In e o.
Proof.
  unfold prop_put. destruct (prop_mem k o); [apply prop_update_in|].
  destruct (array_index k); [apply prop_insert_index_in|].
  intros [Hin|[<-|[]]]%in_app_or; auto.
Qed.

(** Hanging a fresh empty object below [a] adds one level at most. *)
Lemma alloc_step_depth (h : heap) a key :
  a < length h ->
  forall m v,
    finite_depth m h v = true ->
    finite_depth (S m)
      (<[a := prop_put key (VObject (length h)) (h !!! a)]> (h ++ [[]])) v
    = true.
Proof.
  intros Ha.
  set (h1 := <[a := prop_put key (VObject (length h)) (h !!! a)]> (h ++ [[]])).
  assert (Hfresh : h1 !!! length h = []).
  { unfold h1. rewrite list_lookup_total_insert_ne by lia.
    rewrite alloc_lookup, list_lookup_total_alt, lookup_ge_None_2 by lia.
    reflexivity. }
  induction m as [|m IH]; intros v Hdepth.
  - destruct v; try discriminate; reflexivity.
  - destruct v as [| |b|z|s|y]; try reflexivity.
    cbn [finite_depth] in *. rewrite forallb_forall in *.
    intros kv Hin. destruct (decide (y = a)) as [->|Hne].
    + unfold h1 in Hin.
      rewrite list_lookup_total_insert_eq in Hin by (rewrite length_app; cbn; lia).
      destruct (prop_put_in _ _ _ _ Hin) as [->|Hold]; [|auto].
      cbn [snd finite_depth]. now rewrite Hfresh.
    + unfold h1 in Hin. rewrite list_lookup_total_insert_ne in Hin by congruence.
      rewrite alloc_lookup in Hin. auto.
Qed.

End Allocation.

(** ** The loop of set *)

Section SetLoop.

Lemma set_loop_walk key rest a b (h : heap) :
  prop_lookup key (h !!! a) = Some (VObject b) ->
  Objmod.set_loop (key :: rest) (VObject a) h
  = Objmod.set_loop rest (VObject b) h.
Proof.
  intros Hk. cbn [Objmod.set_loop].
  unfold bind, Objmod.not_container, bind, js_get, ret.
  rewrite Hk. cbn. rewrite Hk. cbn. rewrite Hk. reflexivity.
Qed.

Lemma set_loop_fresh key rest a (h : heap) :
  a < length h ->
  is_container (default VUndefined (prop_lookup key (h !!! a))) = false ->
  Objmod.set_loop (key :: rest) (VObject a) h
  = Objmod.set_loop rest (VObject (length h))
      (<[a := prop_put key (VObject (length h)) (h !!! a)]> (h ++ [[]])).
Proof.
  intros Ha Hchild. cbn [Objmod.set_loop].
  unfold bind, Objmod.not_container, bind, js_get, js_new, js_put, ret.
  assert (Hfresh :
    (if negb (jstype_eqb
                (typeof (default VUndefined (prop_lookup key (h !!! a)))) TObject)
     then true
     else is_null (default VUndefined (prop_lookup key (h !!! a)))) = true).
  { destruct (default VUndefined (prop_lookup key (h !!! a)));
      cbn in *; congruence. }
  destruct (negb (jstype_eqb
              (typeof (default VUndefined (prop_lookup key (h !!! a)))) TObject));
    cbn; [|rewrite Hfresh];
    rewrite alloc_lookup, list_lookup_total_insert_eq, prop_put_lookup,
      String.eqb_refl by (rewrite length_app; cbn; lia);
    reflexivity.
Qed.

Lemma set_loop_effect address :
  forall a (h : heap),
    refs_inside h -> a < length h ->
    exists c h',
      Objmod.set_loop address (VObject a) h = Ok (VObject c, h')
      /\ resolve h' address (VObject a) = Some (VObject c)
      /\ c < length h'
      /\ refs_inside h'
      /\ keeps_containers h h'
      /\ deepens (length address) h h'.
Proof.
  induction address as [|key rest IH]; intros a h Hrefs Ha.
  { exists a, h. repeat split; auto.
    - intros ? ? ? ?; assumption.
    - intros m v Hm. now rewrite Nat.add_0_r. }
  destruct (is_container (default VUndefined (prop_lookup key (h !!! a))))
    eqn:Hchild.
  - (* the key holds a container: walk into it *)
    destruct (prop_lookup key (h !!! a)) as [[| |b0|z|s|b]|] eqn:Hk;
      try discriminate.
    rewrite (set_loop_walk _ _ _ _ _ Hk).
    destruct (IH b h Hrefs (Hrefs _ _ _ Hk))
      as (c & h' & Hloop & Hres & Hc & Hrefs' & Hkeep & Hdeep).
    exists c, h'. cbn [resolve]. rewrite Hloop, (Hkeep _ _ _ Hk).
    repeat split; auto.
    intros m v Hm. apply (finite_depth_mono h' (m + length rest)); [cbn; lia|].
    now apply Hdeep.
  - (* anything else is replaced by a fresh object *)
    rewrite set_loop_fresh by assumption.
    set (h1 := <[a := prop_put key (VObject (length h)) (h !!! a)]> (h ++ [[]])).
    assert (Hlen : length h1 = S (length h)).
    { unfold h1. rewrite length_insert, length_app. cbn. lia. }
    assert (Hread : forall x k,
               prop_lookup k (h1 !!! x)
               = if bool_decide (x = a) && (k =? key)
                 then Some (VObject (length h))
                 else prop_lookup k (h !!! x)).
    { intros x k. unfold h1. destruct (decide (x = a)) as [->|Hne].
      - rewrite list_lookup_total_insert_eq by (rewrite length_app; cbn; lia).
        rewrite prop_put_lookup, (bool_decide_eq_true_2 _ eq_refl). reflexivity.
      - rewrite list_lookup_total_insert_ne by congruence.
        rewrite alloc_lookup, (bool_decide_eq_false_2 _ Hne). reflexivity. }
    assert (Hrefs1 : refs_inside h1).
    { intros x k b. rewrite Hread, Hlen.
      destruct (bool_decide (x = a) && (k =? key)).
      - intros [= <-]. lia.
      - intros Hk. specialize (Hrefs _ _ _ Hk). lia. }
    destruct (IH (length h) h1 Hrefs1 ltac:(lia))
      as (c & h' & Hloop & Hres & Hc & Hrefs' & Hkeep & Hdeep).
    exists c, h'. cbn [resolve]. rewrite Hloop.
    rewrite (Hkeep a key (length h)).
    2:{ rewrite Hread, (bool_decide_eq_true_2 _ eq_refl), String.eqb_refl.
        reflexivity. }
    repeat split; auto.
    + intros x k b Hk. apply Hkeep. rewrite Hread.
      destruct (bool_decide (x = a) && (k =? key)) eqn:Hslot; [|exact Hk].
      apply andb_true_iff in Hslot as [->%bool_decide_eq_true Hkk].
      apply String.eqb_eq in Hkk. subst k. rewrite Hk in Hchild. discriminate.
    + intros m v Hm. cbn [length]. rewrite Nat.add_succ_r.
      apply (Hdeep (S m)). now apply alloc_step_depth.
Qed.

(** The whole effect of set: every segment of the path, the last one
    included, is made to lead to a container, and the value is assigned
    inside the container at the end, under the name of the last segment. *)
Lemma set_effect (h : heap) l p v :
  closed h = true ->
  l < length h ->
  nonempty p = true ->
  let address := List.filter nonempty (split "." p) in
  exists c h',
    Objmod.set (VObject l) p v h
    = Ok (VUndefined, <[c := prop_put (last_key address) v (h' !!! c)]> h')
    /\ resolve h' address (VObject l) = Some (VObject c)
    /\ c < length h'.
Proof.
  intros Hclosed Hl Hp address. unfold Objmod.set. rewrite Hp. cbn [negb].
  fold address.
  destruct (set_loop_effect address l h (closed_refs_inside _ Hclosed) Hl)
    as (c & h' & Hloop & Hres & Hc & _).
  exists c, h'. unfold bind. rewrite Hloop. cbn. auto.
Qed.

End SetLoop.

(** ** The last assignment of set *)

Section FinalWrite.

Variables (h : heap) (c : loc) (k : string) (x : jsvalue).

(** The heap after the last statement of set, [c[k] = x]. *)
Let hf : heap := <[c := prop_put k x (h !!! c)]> h.

Lemma final_write_elsewhere a : a <> c -> hf !!! a = h !!! a.
Proof. intros Hne. unfold hf. now rewrite list_lookup_total_insert_ne. Qed.

Lemma final_write_read : c < length h -> prop_lookup k (hf !!! c) = Some x.
Proof.
  intros Hc. unfold hf. rewrite list_lookup_total_insert_eq by exact Hc.
  now rewrite prop_put_lookup, String.eqb_refl.
Qed.

(** The walk that ended on [c] is not disturbed by the assignment inside
    [c], as no object on the way is [c] itself. *)
Lemma walk_survives ks :
  forall n a,
    finite_depth n h (VObject a) = true ->
    resolve h ks (VObject a) = Some (VObject c) ->
    resolve hf ks (VObject a) = Some (VObject c).
Proof.
  induction ks as [|key ks IH]; intros n a Hdepth Hres; [exact Hres|].
  assert (Hne : a <> c).
  { intros ->. pose proof (no_cycle h n c _ Hdepth Hres). discriminate. }
  cbn [resolve] in *. rewrite (final_write_elsewhere _ Hne).
  destruct (prop_lookup key (h !!! a)) as [child|] eqn:Hk; [|discriminate].
  destruct n as [|n]; [discriminate|].
  pose proof (finite_depth_child _ _ _ _ _ Hdepth Hk) as Hchild.
  destruct child as [| |b|z|s|a']; try (destruct ks; discriminate).
  now apply (IH n).
Qed.

End FinalWrite.

Lemma resolve_app (h : heap) ks ks' v :
  resolve h (ks ++ ks') v
  = match resolve h ks v with
    | Some w => resolve h ks' w
    | None => None
    end.
Proof.
  revert v. induction ks as [|k ks IH]; intros v; [reflexivity|].
  cbn [resolve app]. destruct v; try reflexivity.
  destruct (prop_lookup k (h !!! l)); [apply IH|reflexivity].
Qed.

Lemma filter_all {A} (f : A -> bool) xs :
  forallb f xs = true -> List.filter f xs = xs.
Proof.
  induction xs as [|x xs IH]; cbn; [reflexivity|].
  intros [-> Hxs]%andb_true_iff. now rewrite IH.
Qed.

(** On a closed heap without cycles below the root, and for a path whose
    segments are all non-empty: set returns, has then finds the path, get
    reads a container at it, and the value sits one key further down,
    under the name of the last segment once more. *)
Lemma set_then_read n (h : heap) l p v d :
  closed h = true ->
  l < length h ->
  finite_depth n h (VObject l) = true ->
  forallb nonempty (split "." p) = true ->
  exists c hf,
    Objmod.set (VObject l) p v h = Ok (VUndefined, hf)
    /\ Objmod.has (VObject l) p hf = Ok (true, hf)
    /\ Objmod.get (VObject l) p d hf = Ok (VObject c, hf)
    /\ resolve hf (split "." p ++ [last_key (split "." p)]) (VObject l) = Some v.
Proof.
  intros Hclosed Hl Hdepth Hvalid.
  assert (Hp : nonempty p = true) by (destruct p; [discriminate|reflexivity]).
  destruct (set_loop_effect (split "." p) l h (closed_refs_inside _ Hclosed) Hl)
    as (c & h' & Hloop & Hres & Hc & _ & _ & Hdeep).
  pose proof (walk_survives h' c (last_key (split "." p)) v _ _ _
                (Hdeep _ _ Hdepth) Hres) as Hres'.
  eexists c, _. split; [|split; [|split]].
  - unfold Objmod.set. rewrite Hp, (filter_all _ _ Hvalid). cbn [negb].
    unfold bind. rewrite Hloop. reflexivity.
  - unfold Objmod.has. rewrite has_loop_resolve, Hres'. reflexivity.
  - rewrite get_resolve, Hres'. reflexivity.
  - rewrite resolve_app, Hres'. cbn [resolve].
    now rewrite final_write_read.
Qed.

(** ** Deleting twice *)

Section DeleteTwice.

Variables (h : heap) (c : loc) (k : string).

(** The heap after [c[k] = undefined]. *)
Let h1 : heap := <[c := prop_put k VUndefined (h !!! c)]> h.

Lemma cleared_lookup a key :
  prop_lookup key (h1 !!! a)
  = if bool_decide (a = c) && (key =? k) && bool_decide (c < length h)
    then Some VUndefined
    else prop_lookup key (h !!! a).
Proof.
  unfold h1. destruct (decide (c < length h)) as [Hlt|Hge].
  - rewrite (bool_decide_eq_true_2 _ Hlt), andb_true_r.
    destruct (decide (a = c)) as [->|Hne].
    + rewrite list_lookup_total_insert_eq by exact Hlt.
      rewrite (bool_decide_eq_true_2 _ eq_refl). cbn. apply prop_put_lookup.
    + rewrite list_lookup_total_insert_ne by congruence.
      now rewrite (bool_decide_eq_false_2 _ Hne).
  - rewrite list_insert_ge by lia.
    rewrite (bool_decide_eq_false_2 _ Hge). now rewrite andb_false_r.
Qed.

(** Walking again after the assignment either stops early or ends on the
    same container. *)
Lemma walk_again address :
  forall v c0,
    walk_target h address v = Some (VObject c0) ->
    walk_target h1 address v = Some (VObject c0)
    \/ walk_target h1 address v = None.
Proof.
  unfold walk_target.
  induction address as [|key rest IH]; intros v c0; cbn [resolve]; [auto|].
  destruct v as [| |b|z|s|a]; try discriminate.
  rewrite cleared_lookup.
  destruct (bool_decide (a = c) && (key =? k) && bool_decide (c < length h)).
  - intros _. right. destruct rest; reflexivity.
  - destruct (prop_lookup key (h !!! a)) as [child|]; [apply IH|discriminate].
Qed.

Lemma walk_target_object address v t :
  walk_target h address v = Some t -> exists c0, t = VObject c0.
Proof.
  unfold walk_target.
  destruct (resolve h address v) as [[| |b|z|s|c0]|]; try discriminate.
  intros [= <-]. eauto.
Qed.

End DeleteTwice.

Lemma del_twice (h : heap) l p :
  match Objmod.del (VObject l) p h with
  | Ok (_, h1) => Objmod.del (VObject l) p h1 = Ok (VUndefined, h1)
  | _ => False
  end.
Proof.
  rewrite del_effect.
  destruct (walk_target h (split "." p) (VObject l)) as [t|] eqn:Hwalk.
  - destruct (walk_target_object _ _ _ _ Hwalk) as [c ->]. cbv beta iota zeta.
    rewrite del_effect.
    destruct (walk_again h c (last_key (split "." p)) _ _ _ Hwalk) as [-> | ->];
      [|reflexivity].
    cbv beta iota zeta. rewrite list_insert_insert_eq.
    rewrite cleared_lookup.
    destruct (decide (c < length h)) as [Hlt|Hge].
    + rewrite list_lookup_total_insert_eq by exact Hlt.
      rewrite prop_put_again.
      rewrite (bool_decide_eq_true_2 _ eq_refl), String.eqb_refl,
        (bool_decide_eq_true_2 _ Hlt). reflexivity.
    + rewrite !list_insert_ge by lia.
      rewrite (bool_decide_eq_false_2 _ Hge), andb_false_r.
      rewrite list_lookup_total_alt, lookup_ge_None_2 by lia. reflexivity.
  - rewrite del_effect, Hwalk. reflexivity.
Qed.

(** Below a root without cycles del never changes what has answers. *)
Lemma del_keeps_has n (h : heap) l p :
  finite_depth n h (VObject l) = true ->
  exists r hf b,
    Objmod.del (VObject l) p h = Ok (r, hf)
    /\ Objmod.has (VObject l) p h = Ok (b, h)
    /\ Objmod.has (VObject l) p hf = Ok (b, hf).
Proof.
  intros Hdepth. rewrite del_effect. unfold Objmod.has, walk_target.
  destruct (resolve h (split "." p) (VObject l)) as [[| |b|z|s|c]|] eqn:Hres;
    try (eexists _, _, _; split; [reflexivity|];
         rewrite !has_loop_resolve, Hres; split; reflexivity).
  cbv beta iota zeta. eexists _, _, _. split; [reflexivity|].
  rewrite !has_loop_resolve, Hres.
  rewrite (walk_survives h c _ VUndefined _ _ _ Hdepth Hres).
  split; reflexivity.
Qed.

(** ** Enumeration *)

Section Enumeration.

Variable h : heap.

Lemma for_of_ext {A S} (f g : S -> A -> M S) xs :
  (forall s x h, f s x h = g s x h) ->
  forall s h, for_of xs f s h = for_of xs g s h.
Proof.
  intros Hfg. induction xs as [|x xs IH]; intros s h0; [reflexivity|].
  cbn [for_of]. unfold bind. rewrite Hfg.
  destruct (g s x h0) as [[s' h']| |]; auto.
Qed.

Lemma container_test v :
  truthy v && jstype_eqb (typeof v) TObject = is_container v.
Proof. destruct v as [| |b|n|s|l]; cbn; try reflexivity; apply andb_false_r. Qed.

Lemma map_set_all_app xs ys m :
  map_set_all (xs ++ ys) m = map_set_all ys (map_set_all xs m).
Proof. apply fold_left_app. Qed.

Lemma preorder_leaf n prefix v :
  is_container v = false -> spec_preorder n h prefix v = [].
Proof. destruct n, v; cbn; congruence. Qed.

Lemma scan_unfold fuel l prefix m :
  Objmod.scan (S fuel) (VObject l) prefix m h
  = for_of (h !!! l) (scan_step fuel prefix) m h.
Proof.
  cbn [Objmod.scan]. unfold bind at 1, js_entries.
  apply for_of_ext. intros s [key child] h'. unfold scan_step. cbn [fst snd].
  rewrite container_test. reflexivity.
Qed.

(** On a tree of depth at most [n], any fuel from [n] on is enough, scan
    leaves the heap alone, and the [Map] it returns is the one obtained by
    writing the pre-order entries one after the other. *)
Lemma scan_preorder n :
  forall fuel l prefix m,
    n <= fuel ->
    finite_depth n h (VObject l) = true ->
    Objmod.scan fuel (VObject l) prefix m h
    = Ok (map_set_all (spec_preorder n h prefix (VObject l)) m, h).
Proof.
  induction n as [|n IH]; intros fuel l prefix m Hfuel Htree; [discriminate|].
  destruct fuel as [|fuel]; [lia|].
  rewrite scan_unfold.
  cut (forall (entries : props) m,
          forallb (fun kv => finite_depth n h kv.2) entries = true ->
          for_of entries (scan_step fuel prefix) m h
          = Ok (map_set_all (flat_map (child_entries n h prefix) entries) m, h)).
  { intros Hloop. apply Hloop, Htree. }
  clear m Htree. intros entries.
  induction entries as [|[key child] entries IHe]; intros m Htree; [reflexivity|].
  cbn [forallb] in Htree. apply andb_true_iff in Htree as [Hchild Hrest].
  cbn [for_of flat_map]. unfold bind at 1, scan_step at 1, child_entries at 1.
  cbn [fst snd].
  change ((?p, ?c) :: ?xs ++ ?ys) with (((p, c) :: xs) ++ ys).
  rewrite map_set_all_app.
  destruct child as [| |b|z|s|l'];
    try (rewrite preorder_leaf by reflexivity; cbn; apply IHe; exact Hrest).
  cbn [is_container snd] in *.
  rewrite (IH fuel l' _ _ ltac:(lia) Hchild).
  apply IHe, Hrest.
Qed.

End Enumeration.

(** ** Paths as strings and as segment lists *)

Section Paths.

Lemma split_not_nil sep s : split sep s <> [].
Proof.
  destruct s as [|c s]; cbn; [discriminate|].
  destruct (Ascii.eqb c sep); [discriminate|].
  destruct (split sep s); discriminate.
Qed.

Lemma split_append a b :
  split "." (a +:+ String "." b) = split "." a ++ split "." b.
Proof.
  induction a as [|c a IH]; [reflexivity|].
  change (String c a +:+ String "." b) with (String c (a +:+ String "." b)).
  cbn [split]. rewrite IH.
  destruct (Ascii.eqb c "."); [reflexivity|].
  destruct (split "." a) as [|w ws] eqn:Ha; [|reflexivity].
  exfalso. exact (split_not_nil _ _ Ha).
Qed.

Lemma split_dot_free k : dot_free k = true -> split "." k = [k].
Proof.
  induction k as [|c k IH]; [reflexivity|].
  cbn [dot_free split]. intros [Hc Hk]%andb_true_iff.
  apply negb_true_iff in Hc. rewrite Hc, (IH Hk). reflexivity.
Qed.

Lemma nonempty_append a b : nonempty a = true -> nonempty (a +:+ b) = true.
Proof. destruct a; [discriminate|reflexivity]. Qed.

Lemma segments_join prefix k :
  plain_key k = true ->
  segments_of (join_path prefix k) = segments_of prefix ++ [k].
Proof.
  intros [Hne Hdf]%andb_true_iff. unfold segments_of, join_path.
  destruct (nonempty prefix) eqn:Hp.
  - rewrite nonempty_append by exact Hp.
    change ("." +:+ k) with (String "." k).
    rewrite split_append, (split_dot_free _ Hdf). reflexivity.
  - rewrite Hne, (split_dot_free _ Hdf). reflexivity.
Qed.

Lemma segments_nonempty path :
  segments_of path <> [] -> segments_of path = split "." path.
Proof. unfold segments_of. destruct (nonempty path); congruence. Qed.

End Paths.

(** ** Every enumerated entry is what get reads at its path *)

Section Soundness.

Variable h : heap.

Lemma preorder_resolve n :
  forall prefix v path x,
    plain_keys n h v = true ->
    In (path, x) (spec_preorder n h prefix v) ->
    exists ks, ks <> []
               /\ segments_of path = segments_of prefix ++ ks
               /\ resolve h ks v = Some x.
Proof.
  induction n as [|n IH]; intros prefix v path x Hkeys Hin; [destruct Hin|].
  destruct v as [| |b|z|s|l]; try destruct Hin.
  cbn [plain_keys spec_preorder] in *.
  apply andb_true_iff in Hkeys as [Hdistinct Hall].
  apply in_flat_map in Hin as [[k child] [Hk Hin]]. cbn [fst snd] in Hin.
  rewrite forallb_forall in Hall.
  pose proof (Hall _ Hk) as [Hplain Hchild]%andb_true_iff. cbn [fst snd] in *.
  pose proof (prop_lookup_distinct _ _ _ Hdistinct Hk) as Hlook.
  destruct Hin as [[= <- <-]|Hin].
  - exists [k]. split; [discriminate|]. split; [now apply segments_join|].
    cbn. now rewrite Hlook.
  - destruct (IH _ _ _ _ Hchild Hin) as (ks & _ & Hsegs & Hres).
    exists (k :: ks). split; [discriminate|]. split.
    + rewrite Hsegs, segments_join by exact Hplain. now rewrite <- app_assoc.
    + cbn. now rewrite Hlook.
Qed.

Lemma preorder_get n l path x def :
  plain_keys n h (VObject l) = true ->
  In (path, x) (spec_preorder n h "" (VObject l)) ->
  Objmod.get (VObject l) path def h = Ok (x, h).
Proof.
  intros Hkeys Hin.
  destruct (preorder_resolve _ _ _ _ _ Hkeys Hin) as (ks & Hne & Hsegs & Hres).
  cbn [segments_of nonempty String.eqb negb app] in Hsegs.
  unfold Objmod.get. rewrite get_loop_resolve.
  rewrite <- segments_nonempty, Hsegs, Hres by congruence. reflexivity.
Qed.

End Soundness.

(** ** Distinct paths: the [Map] is the enumeration itself *)

Section Uniqueness.

Variable h : heap.

Lemma distinct_NoDup ks : distinct ks = true -> NoDup ks.
Proof.
  induction ks as [|k ks IH]; cbn; [constructor|].
  intros [Hfresh Hd]%andb_true_iff. apply NoDup_cons. split; [|auto].
  intros Hin%list_elem_of_In. apply negb_true_iff in Hfresh.
  assert (existsb (String.eqb k) ks = true); [|congruence].
  apply existsb_exists. exists k. split; [assumption|apply String.eqb_refl].
Qed.

Lemma map_set_fresh k v (m : jsmap) :
  k ∉ List.map fst m -> map_set k v m = m ++ [(k, v)].
Proof.
  induction m as [|[k' v'] m IH]; cbn; [reflexivity|].
  intros Hfresh. destruct (String.eqb_spec k k') as [->|Hne].
  - exfalso. apply Hfresh. left.
  - rewrite IH; [reflexivity|]. intros Hin. apply Hfresh. now right.
Qed.

Lemma map_set_all_fresh entries :
  forall m : jsmap,
    NoDup (List.map fst (m ++ entries)) -> map_set_all entries m = m ++ entries.
Proof.
  induction entries as [|[k v] entries IH]; intros m Hnd; cbn.
  - now rewrite app_nil_r.
  - change (map_set_all entries (map_set k v m) = m ++ (k, v) :: entries).
    rewrite map_set_fresh.
    + rewrite IH; rewrite <- app_assoc; [reflexivity|exact Hnd].
    + rewrite List.map_app in Hnd. cbn in Hnd.
      apply NoDup_app in Hnd as (_ & Hdisj & _).
      intros Hin. apply (Hdisj _ Hin). left.
Qed.

(** The paths enumerated below the child at key [k] all pass through [k]. *)
Lemma block_segments n prefix k child path x :
  plain_key k = true ->
  plain_keys n h child = true ->
  In (path, x) (child_entries n h prefix (k, child)) ->
  exists ks, segments_of path = segments_of prefix ++ k :: ks.
Proof.
  intros Hk Hchild [[= <- <-]|Hin].
  - exists []. now apply segments_join.
  - destruct (preorder_resolve _ _ _ _ _ _ Hchild Hin) as (ks & _ & Hsegs & _).
    exists ks. rewrite Hsegs, segments_join by exact Hk. now rewrite <- app_assoc.
Qed.

Lemma preorder_paths_distinct n :
  forall prefix v,
    plain_keys n h v = true -> NoDup (List.map fst (spec_preorder n h prefix v)).
Proof.
  induction n as [|n IH]; intros prefix v Hkeys; [constructor|].
  destruct v as [| |b|z|s|l]; try constructor.
  cbn [plain_keys spec_preorder] in *.
  apply andb_true_iff in Hkeys as [Hdistinct Hall].
  apply distinct_NoDup in Hdistinct.
  revert Hdistinct Hall.
  match goal with |- context [flat_map _ ?es] => generalize es end.
  intros entries.
  induction entries as [|[k child] entries IHe]; intros Hnd Hall; [constructor|].
  cbn [forallb fst snd List.map] in *.
  apply andb_true_iff in Hall as [[Hk Hchild]%andb_true_iff Hall].
  apply NoDup_cons in Hnd as [Hfresh Hnd].
  cbn [flat_map fst snd]. rewrite List.map_app. cbn [List.map fst].
  assert (Hrest : forall path,
             path ∈ List.map fst (flat_map (child_entries n h prefix) entries) ->
             exists k' ks, k' ∈ List.map fst entries
                           /\ segments_of path = segments_of prefix ++ k' :: ks).
  { intros path Hin.
    apply list_elem_of_In, in_map_iff in Hin as [[path' x] [<- Hin]].
    apply in_flat_map in Hin as [[k' child'] [Hk' Hin]].
    rewrite forallb_forall in Hall.
    pose proof (Hall _ Hk') as [Hpk Hpc]%andb_true_iff.
    destruct (block_segments _ _ _ _ _ _ Hpk Hpc Hin) as [ks Hsegs].
    exists k', ks. split; [|exact Hsegs].
    apply list_elem_of_In, in_map_iff. now exists (k', child'). }
  change (NoDup ((join_path prefix k
                  :: List.map fst (spec_preorder n h (join_path prefix k) child))
                 ++ List.map fst (flat_map (child_entries n h prefix) entries))).
  apply NoDup_app. split; [|split].
  - apply NoDup_cons. split; [|now apply IH].
    intros Hin. apply list_elem_of_In, in_map_iff in Hin as [[path x] [Hp Hin]].
    cbn in Hp. subst path.
    destruct (preorder_resolve _ _ _ _ _ _ Hchild Hin) as (ks & Hne & Hsegs & _).
    rewrite <- (app_nil_r (segments_of (join_path prefix k))) in Hsegs at 1.
    apply app_inv_head in Hsegs. congruence.
  - intros path Hin Hin'.
    destruct (Hrest _ Hin') as (k' & ks' & Hk' & Hsegs').
    assert (exists ks, segments_of path = segments_of prefix ++ k :: ks)
      as [ks Hsegs].
    { apply list_elem_of_In in Hin.
      change (In path (List.map fst (child_entries n h prefix (k, child)))) in Hin.
      apply in_map_iff in Hin as [[path' x] [<- Hin]].
      now apply (block_segments n prefix k child path' x). }
    rewrite Hsegs in Hsegs'. apply app_inv_head in Hsegs'.
    injection Hsegs' as -> _. contradiction.
  - now apply IHe.
Qed.

Lemma scan_plain n fuel l :
  n <= fuel ->
  finite_depth n h (VObject l) = true ->
  plain_keys n h (VObject l) = true ->
  Objmod.scan fuel (VObject l) "" [] h = Ok (spec_preorder n h "" (VObject l), h).
Proof.
  intros Hfuel Htree Hkeys. rewrite (scan_preorder h n) by assumption.
  rewrite map_set_all_fresh; [reflexivity|]. now apply preorder_paths_distinct.
Qed.

End Uniqueness.

(** ** The cache *)

Section Cache.

Variable h : heap.

Lemma refill_map entries :
  forall (m : jsmap),
    for_of entries
      (fun (map : jsmap) '(path, value) => ret (map_set path value map)) m h
    = Ok (map_set_all entries m, h).
Proof.
  induction entries as [|[path value] entries IH]; intros m; [reflexivity|].
  cbn [for_of]. unfold bind, ret at 1. apply IH.
Qed.

Lemma cache_built n fuel l :
  n <= fuel ->
  finite_depth n h (VObject l) = true ->
  Objmod.cache fuel (VObject l) h
  = Ok ({| Objmod.c_obj := VObject l;
           Objmod.c_map := map_set_all (spec_preorder n h "" (VObject l)) [] |}, h).
Proof.
  intros Hfuel Htree. unfold Objmod.cache, bind.
  now rewrite (scan_preorder h n).
Qed.

Lemma cache_refreshed n fuel l m :
  n <= fuel ->
  finite_depth n h (VObject l) = true ->
  Objmod.cache_refresh fuel {| Objmod.c_obj := VObject l; Objmod.c_map := m |} h
  = Ok ({| Objmod.c_obj := VObject l;
           Objmod.c_map :=
             map_set_all (map_set_all (spec_preorder n h "" (VObject l)) []) [] |}, h).
Proof.
  intros Hfuel Htree. unfold Objmod.cache_refresh, bind. cbn [Objmod.c_obj].
  rewrite (scan_preorder h n) by assumption. now rewrite refill_map.
Qed.

(** A path found in an index built from the enumeration of a heap reads,
    through get, the indexed value in that heap. *)
Lemma indexed_get n l path x def :
  plain_keys n h (VObject l) = true ->
  map_get path (map_set_all (spec_preorder n h "" (VObject l)) []) = Some x ->
  Objmod.get (VObject l) path def h = Ok (x, h).
Proof.
  intros Hkeys Hget. apply (preorder_get h n); [assumption|].
  apply prop_lookup_in in Hget.
  destruct (map_set_all_in _ _ _ Hget) as [?|[]]. assumption.
Qed.

End Cache.

(** * Further lemmas *)

(** ** The older module *)

Section LegacyLoops.

Lemma bind_ext {A B} (m : M A) (f g : A -> M B) h :
  (forall a h', f a h' = g a h') -> bind m f h = bind m g h.
Proof. intros Hfg. unfold bind. destruct (m h) as [[a h']| |]; auto. Qed.

(** get and has of the older module are those of the current one. *)
Lemma legacy_get obj path def : Legacy.get obj path def = Objmod.get obj path def.
Proof. reflexivity. Qed.

Lemma legacy_has obj path : Legacy.has obj path = Objmod.has obj path.
Proof. reflexivity. Qed.

(** The counted loop of the older set walks the segments from index [i]
    on, [count] of them. *)
Lemma set_walk_take count :
  forall i address value h,
    i + count <= length address ->
    Legacy.set_walk count i address value h
    = Objmod.set_loop (take count (drop i address)) value h.
Proof.
  induction count as [|count IH]; intros i address value h Hlen; [reflexivity|].
  destruct (address !! i) as [key|] eqn:Hi.
  2:{ apply lookup_ge_None in Hi. lia. }
  rewrite (drop_S _ _ _ Hi). cbn [take Objmod.set_loop Legacy.set_walk].
  rewrite Hi. cbn [default from_option id].
  apply bind_ext. intros fresh h1.
  apply bind_ext. intros u h2.
  apply bind_ext. intros next h3.
  apply IH. lia.
Qed.

Lemma last_key_snoc xs k : last_key (xs ++ [k]) = k.
Proof. unfold last_key. now rewrite last_snoc. Qed.

Lemma take_snoc_init (xs : list string) k :
  take (length (xs ++ [k]) - 1) (xs ++ [k]) = xs.
Proof.
  rewrite length_app. cbn [length].
  replace (length xs + 1 - 1) with (length xs) by lia.
  now rewrite take_app_length.
Qed.

Lemma init_last (xs : list string) :
  xs <> [] -> xs = take (length xs - 1) xs ++ [last_key xs].
Proof.
  intros Hne. destruct (exists_last Hne) as (ys & k & ->).
  now rewrite take_snoc_init, last_key_snoc.
Qed.

(** The older set on a path with a segment: walk all segments but the
    last, assign under the last, answer [true]. *)
Lemma legacy_set_segments obj p v h :
  let address := List.filter nonempty (split "." p) in
  address <> [] ->
  Legacy.set obj p v h
  = (do value <- Objmod.set_loop (take (length address - 1) address) obj;
     run js_put value (last_key address) v;
     ret (VBool true)) h.
Proof.
  intros address Hne. unfold Legacy.set. fold address.
  assert (Hp : nonempty p = true).
  { destruct p; [|reflexivity]. now destruct Hne. }
  rewrite Hp. cbn [negb].
  destruct (length address =? 0)%nat eqn:Hlen.
  { apply Nat.eqb_eq in Hlen. destruct address; [now destruct Hne|discriminate]. }
  unfold bind. rewrite set_walk_take by (cbn; lia). now rewrite drop_0.
Qed.

End LegacyLoops.

(** ** Segments of a path *)

Section Segments.

Lemma split_segments_dot_free p : Forall (fun s => dot_free s = true) (split "." p).
Proof.
  induction p as [|c p IH]; cbn [split]; [repeat constructor|].
  destruct (Ascii.eqb c ".") eqn:Hc.
  - constructor; [reflexivity|exact IH].
  - destruct (split "." p) as [|w ws]; [repeat constructor; cbn; now rewrite Hc|].
    inversion IH as [|? ? Hw Hws]; subst. constructor; [|exact Hws].
    cbn. now rewrite Hc, Hw.
Qed.

Lemma last_key_dot_free (xs : list string) :
  Forall (fun s => dot_free s = true) xs -> dot_free (last_key xs) = true.
Proof.
  intros Hxs. unfold last_key. destruct (last xs) as [k|] eqn:Hlast; [|reflexivity].
  rewrite Forall_forall in Hxs. apply Hxs. now apply last_Some_elem_of.
Qed.

Lemma last_key_nonempty (xs : list string) :
  xs <> [] -> forallb nonempty xs = true -> nonempty (last_key xs) = true.
Proof.
  intros Hne Hall. destruct (exists_last Hne) as (ys & k & ->).
  rewrite last_key_snoc. rewrite forallb_app in Hall.
  apply andb_true_iff in Hall as [_ Hk]. cbn in Hk. now rewrite andb_true_r in Hk.
Qed.

Lemma filter_nonempty_all (xs : list string) :
  forallb nonempty (List.filter nonempty xs) = true.
Proof.
  induction xs as [|x xs IH]; cbn; [reflexivity|].
  destruct (nonempty x) eqn:Hx; cbn; [now rewrite Hx|exact IH].
Qed.

Lemma filter_existsb {A} (f : A -> bool) xs :
  existsb f xs = true -> List.filter f xs <> [].
Proof.
  induction xs as [|x xs IH]; cbn; [discriminate|].
  destruct (f x); [discriminate|exact IH].
Qed.

Lemma append_cons x (a b : string) : String x a +:+ b = String x (a +:+ b).
Proof. reflexivity. Qed.

Lemma append_assoc (a b c : string) : (a +:+ b) +:+ c = a +:+ (b +:+ c).
Proof.
  induction a as [|x a IH]; [reflexivity|]. rewrite !append_cons. now rewrite IH.
Qed.

Lemma append_nil_r (a : string) : a +:+ "" = a.
Proof.
  induction a as [|x a IH]; [reflexivity|]. rewrite append_cons. now rewrite IH.
Qed.

(** A path is its first segment followed by the dotted others. *)
Lemma split_dotted p :
  exists w ws, split "." p = w :: ws /\ p = w +:+ dotted ws.
Proof.
  induction p as [|c p (w & ws & Hsplit & Hp)].
  - exists "", []. split; reflexivity.
  - cbn [split]. rewrite Hsplit. destruct (Ascii.eqb_spec c ".") as [->|Hc].
    + exists "", (w :: ws). split; [reflexivity|].
      cbn [dotted]. change ("" +:+ ?s) with s.
      change ("." +:+ ?s) with (String "." s). now rewrite <- Hp.
    + exists (String c w), ws. split; [reflexivity|].
      change (String c w +:+ ?s) with (String c (w +:+ s)). now rewrite <- Hp.
Qed.

Lemma path_of_dotted ks :
  forall prefix,
    nonempty prefix = true -> path_of prefix ks = prefix +:+ dotted ks.
Proof.
  unfold path_of.
  induction ks as [|k ks IH]; intros prefix Hp; cbn [fold_left dotted].
  - now rewrite append_nil_r.
  - unfold join_path at 2. rewrite Hp.
    rewrite IH by now apply nonempty_append.
    now rewrite !append_assoc.
Qed.

(** Joining the segments of a path as scan does gives the path back,
    provided its first segment is not empty. *)
Lemma path_of_split p :
  forallb nonempty (split "." p) = true -> path_of "" (split "." p) = p.
Proof.
  destruct (split_dotted p) as (w & ws & Hsplit & Hp). rewrite Hsplit.
  cbn [forallb]. intros [Hw _]%andb_true_iff.
  unfold path_of. cbn [fold_left]. unfold join_path at 2. cbn.
  fold (path_of w ws). rewrite path_of_dotted by exact Hw. now rewrite <- Hp.
Qed.

End Segments.

(** ** Keys are never removed *)

Section KeepsKeys.

Lemma keeps_keys_refl h : keeps_keys h h.
Proof. intros a k Hk. exact Hk. Qed.

Lemma keeps_keys_trans h1 h2 h3 :
  keeps_keys h1 h2 -> keeps_keys h2 h3 -> keeps_keys h1 h3.
Proof. intros H12 H23 a k Hk. apply H23, H12, Hk. Qed.

Lemma prop_put_mem k v (o : props) k' :
  prop_mem k' o = true -> prop_mem k' (prop_put k v o) = true.
Proof.
  unfold prop_mem. rewrite prop_put_lookup.
  destruct (k' =? k); [reflexivity|auto].
Qed.

(** An assignment never takes a key away. *)
Lemma assign_keeps_keys (h : heap) c k v :
  keeps_keys h (<[c := prop_put k v (h !!! c)]> h).
Proof.
  intros a k' Hk. destruct (decide (a = c)) as [->|Hne].
  - destruct (decide (c < length h)) as [Hlt|Hge].
    + rewrite list_lookup_total_insert_eq by exact Hlt. now apply prop_put_mem.
    + now rewrite list_insert_ge by lia.
  - now rewrite list_lookup_total_insert_ne by congruence.
Qed.

Lemma alloc_keeps_keys (h : heap) : keeps_keys h (h ++ [[]]).
Proof. intros a k Hk. now rewrite alloc_lookup. Qed.

Lemma js_put_keeps_keys value k v h :
  match js_put value k v h with
  | Ok (_, h') => keeps_keys h h'
  | _ => True
  end.
Proof. destruct value; cbn; try exact I. apply assign_keeps_keys. Qed.

Lemma js_get_heap value key h r h1 :
  js_get value key h = Ok (r, h1) -> h1 = h.
Proof. destruct value; cbn; unfold ret, throw; congruence. Qed.

Lemma not_container_heap value key h r h1 :
  Objmod.not_container value key h = Ok (r, h1) -> h1 = h.
Proof.
  unfold Objmod.not_container, bind.
  destruct (js_get value key h) as [[child h2]| |] eqn:Hget; try discriminate.
  apply js_get_heap in Hget as ->.
  destruct (negb (jstype_eqb (typeof child) TObject)); [unfold ret; congruence|].
  destruct (js_get value key h) as [[child' h3]| |] eqn:Hget'; try discriminate.
  apply js_get_heap in Hget' as ->. unfold ret. congruence.
Qed.

Lemma set_loop_keeps_keys address :
  forall value h,
    match Objmod.set_loop address value h with
    | Ok (_, h') => keeps_keys h h'
    | _ => True
    end.
Proof.
  induction address as [|key rest IH]; intros value h; [apply keeps_keys_refl|].
  cbn [Objmod.set_loop]. unfold bind at 1.
  destruct (Objmod.not_container value key h) as [[fresh h1]| |] eqn:Htest;
    [|exact I..].
  apply not_container_heap in Htest as ->.
  unfold bind at 1.
  destruct ((if fresh then do o <- js_new; js_put value key o else ret tt) h)
    as [[u h2]| |] eqn:Hstep; [|exact I..].
  assert (Hk2 : keeps_keys h h2).
  { destruct fresh.
    - unfold bind, js_new in Hstep.
      pose proof (js_put_keeps_keys value key (VObject (length h)) (h ++ [[]])) as Hput.
      rewrite Hstep in Hput.
      eapply keeps_keys_trans; [apply alloc_keeps_keys|exact Hput].
    - injection Hstep as _ <-. apply keeps_keys_refl. }
  unfold bind.
  destruct (js_get value key h2) as [[next h3]| |] eqn:Hget; [|exact I..].
  apply js_get_heap in Hget as ->.
  specialize (IH next h2).
  destruct (Objmod.set_loop rest next h2) as [[w h4]| |]; [|exact I..].
  eapply keeps_keys_trans; eauto.
Qed.

(** set adds and overwrites, it never removes. *)
Lemma set_keeps_keys obj p v h :
  match Objmod.set obj p v h with
  | Ok (_, h') => keeps_keys h h'
  | _ => True
  end.
Proof.
  unfold Objmod.set. destruct (nonempty p); cbn [negb]; [|apply keeps_keys_refl].
  unfold bind.
  pose proof (set_loop_keeps_keys (List.filter nonempty (split "." p)) obj h) as Hloop.
  destruct (Objmod.set_loop _ obj h) as [[value h1]| |]; [|exact I..].
  pose proof (js_put_keeps_keys value
                (last_key (List.filter nonempty (split "." p))) v h1) as Hput.
  destruct (js_put value _ v h1) as [[u h2]| |]; [|exact I..].
  cbn. eapply keeps_keys_trans; eauto.
Qed.

(** del returns on every heap and never removes a key. *)
Lemma del_keeps_keys (h : heap) l p :
  exists r h', Objmod.del (VObject l) p h = Ok (r, h') /\ keeps_keys h h'.
Proof.
  rewrite del_effect.
  destruct (walk_target h (split "." p) (VObject l)) as [[| |b|z|s|c]|];
    try (exists VUndefined, h; split; [reflexivity|apply keeps_keys_refl]).
  cbv zeta. eexists _, _. split; [reflexivity|apply assign_keeps_keys].
Qed.

Lemma js_put_length value k v (h : heap) :
  match js_put value k v h with
  | Ok (_, h') => length h <= length h'
  | _ => True
  end.
Proof. destruct value; cbn; try exact I. now rewrite length_insert. Qed.

(** The heap only grows along the loop of set. *)
Lemma set_loop_length address :
  forall value (h : heap),
    match Objmod.set_loop address value h with
    | Ok (_, h') => length h <= length h'
    | _ => True
    end.
Proof.
  induction address as [|key rest IH]; intros value h; [cbn; lia|].
  cbn [Objmod.set_loop]. unfold bind at 1.
  destruct (Objmod.not_container value key h) as [[fresh h1]| |] eqn:Htest;
    [|exact I..].
  apply not_container_heap in Htest as ->.
  unfold bind at 1.
  destruct ((if fresh then do o <- js_new; js_put value key o else ret tt) h)
    as [[u h2]| |] eqn:Hstep; [|exact I..].
  assert (Hlen : length h <= length h2).
  { destruct fresh.
    - unfold bind, js_new in Hstep.
      pose proof (js_put_length value key (VObject (length h)) (h ++ [[]])) as Hput.
      rewrite Hstep, length_app in Hput. cbn in Hput. lia.
    - injection Hstep as _ <-. lia. }
  unfold bind.
  destruct (js_get value key h2) as [[next h3]| |] eqn:Hget; [|exact I..].
  apply js_get_heap in Hget as ->.
  specialize (IH next h2).
  destruct (Objmod.set_loop rest next h2) as [[w h4]| |]; [|exact I..]. lia.
Qed.

(** On a heap whose references point inside, set of a value that points
    inside returns and leaves such a heap, no smaller and with every key
    still there. *)
Lemma set_returns (h : heap) l p v :
  refs_inside h ->
  l < length h ->
  (forall b, v = VObject b -> b < length h) ->
  exists r h',
    Objmod.set (VObject l) p v h = Ok (r, h')
    /\ refs_inside h'
    /\ length h <= length h'
    /\ keeps_keys h h'.
Proof.
  intros Hrefs Hl Hv. unfold Objmod.set.
  destruct (nonempty p); cbn [negb].
  2:{ exists (VBool false), h. repeat split; auto. apply keeps_keys_refl. }
  set (address := List.filter nonempty (split "." p)).
  destruct (set_loop_effect address l h Hrefs Hl)
    as (c & h' & Hloop & _ & Hc & Hrefs' & _).
  pose proof (set_loop_length address (VObject l) h) as Hlen.
  pose proof (set_loop_keeps_keys address (VObject l) h) as Hkeys.
  rewrite Hloop in Hlen, Hkeys.
  unfold bind. rewrite Hloop. cbn [js_put].
  eexists _, _. split; [reflexivity|]. split; [|split].
  - intros a k b. destruct (decide (a = c)) as [->|Hne].
    + rewrite list_lookup_total_insert_eq, length_insert by exact Hc.
      rewrite prop_put_lookup.
      destruct (k =? last_key address).
      * intros [= Hb]. specialize (Hv _ Hb). lia.
      * apply Hrefs'.
    + rewrite list_lookup_total_insert_ne, length_insert by congruence.
      apply Hrefs'.
  - rewrite length_insert. exact Hlen.
  - eapply keeps_keys_trans; [exact Hkeys|apply assign_keeps_keys].
Qed.

End KeepsKeys.

(** ** Walks over containers that exist *)

Section Walks.

(** Along containers that are all there the loop of set only walks. *)
Lemma set_loop_existing (h : heap) ks :
  forall a c,
    resolve h ks (VObject a) = Some (VObject c) ->
    Objmod.set_loop ks (VObject a) h = Ok (VObject c, h).
Proof.
  induction ks as [|k ks IH]; intros a c Hres.
  - injection Hres as ->. reflexivity.
  - cbn [resolve] in Hres.
    destruct (prop_lookup k (h !!! a)) as [child|] eqn:Hk; [|discriminate].
    destruct child as [| |b|z|s|a']; try (destruct ks; discriminate).
    rewrite (set_loop_walk _ _ _ _ _ Hk). now apply IH.
Qed.

(** Replacing the properties of [c] does not disturb a walk that ends
    on [c], below a root without cycles. *)
Lemma walk_survives_any (h : heap) c (o : props) ks :
  forall n a,
    finite_depth n h (VObject a) = true ->
    resolve h ks (VObject a) = Some (VObject c) ->
    resolve (<[c := o]> h) ks (VObject a) = Some (VObject c).
Proof.
  induction ks as [|key ks IH]; intros n a Hdepth Hres; [exact Hres|].
  assert (Hne : a <> c).
  { intros ->. pose proof (no_cycle h n c _ Hdepth Hres). discriminate. }
  cbn [resolve] in *. rewrite list_lookup_total_insert_ne by congruence.
  destruct (prop_lookup key (h !!! a)) as [child|] eqn:Hk; [|discriminate].
  destruct n as [|n]; [discriminate|].
  pose proof (finite_depth_child _ _ _ _ _ Hdepth Hk) as Hchild.
  destruct child as [| |b|z|s|a']; try (destruct ks; discriminate).
  now apply (IH n).
Qed.

End Walks.

(** ** Bulk passes *)

Section Bulk.

Lemma for_each_filter_keep (h : heap) l (keep : string -> jsvalue -> bool) entries :
  (forall p v, In (p, v) entries -> keep p v = true) ->
  Objmod.for_each entries
    (fun value path =>
       do keepb <- ret (keep path value);
       if keepb then ret tt else run Objmod.del (VObject l) path; ret tt) h
  = Ok (tt, h).
Proof.
  unfold Objmod.for_each.
  induction entries as [|[p v] entries IH]; intros Hall; [reflexivity|].
  cbn [for_of]. unfold bind at 1, bind at 1, ret at 1.
  rewrite (Hall p v) by now left. unfold ret at 1.
  apply IH. intros p' v' Hin. apply Hall. now right.
Qed.

Lemma for_each_filter_keys (keep : string -> jsvalue -> bool) l entries :
  forall h : heap,
    exists h',
      Objmod.for_each entries
        (fun value path =>
           do keepb <- ret (keep path value);
           if keepb then ret tt else run Objmod.del (VObject l) path; ret tt) h
      = Ok (tt, h')
      /\ keeps_keys h h'.
Proof.
  unfold Objmod.for_each.
  induction entries as [|[p v] entries IH]; intros h.
  { exists h. split; [reflexivity|apply keeps_keys_refl]. }
  cbn [for_of]. unfold bind at 1, bind at 1, ret at 1.
  destruct (keep p v).
  - unfold ret at 1. apply IH.
  - destruct (del_keeps_keys h l p) as (r & h1 & Hdel & Hk1).
    unfold bind at 1. rewrite Hdel. unfold ret at 1.
    destruct (IH h1) as (h' & Hrest & Hk2).
    exists h'. split; [exact Hrest|]. eapply keeps_keys_trans; eauto.
Qed.

Lemma closed_inside (h : heap) a k b :
  closed h = true -> In (k, VObject b) (h !!! a) -> b < length h.
Proof.
  intros Hc Hin. unfold closed in Hc. rewrite forallb_forall in Hc.
  rewrite list_lookup_total_alt in Hin.
  destruct (h !! a) as [o|] eqn:Ha; [|destruct Hin]. cbn in Hin.
  assert (Ho : In o h).
  { apply list_elem_of_In. eapply list_elem_of_lookup_2; eauto. }
  specialize (Hc _ Ho). rewrite forallb_forall in Hc.
  specialize (Hc _ Hin). cbn in Hc. now apply Nat.ltb_lt in Hc.
Qed.

(** The containers scan enumerates are objects of the heap. *)
Lemma preorder_inside (h : heap) n :
  forall prefix v p b,
    closed h = true ->
    In (p, VObject b) (spec_preorder n h prefix v) ->
    b < length h.
Proof.
  induction n as [|n IH]; intros prefix v p b Hc Hin; [destruct Hin|].
  destruct v as [| |b0|z|s|l]; try destruct Hin.
  cbn [spec_preorder] in Hin.
  apply in_flat_map in Hin as [[k child] [Hk [[= _ ->]|Hin]]].
  - now apply (closed_inside h l k).
  - now apply (IH _ _ _ _ Hc Hin).
Qed.

Lemma merge_loop t entries :
  forall h : heap,
    refs_inside h ->
    t < length h ->
    (forall p b, In (p, VObject b) entries -> b < length h) ->
    exists h',
      Objmod.for_each entries
        (fun value path => run Objmod.set (VObject t) path value; ret tt) h
      = Ok (tt, h')
      /\ keeps_keys h h'.
Proof.
  unfold Objmod.for_each.
  induction entries as [|[p v] entries IH]; intros h Hrefs Ht Hin.
  { exists h. split; [reflexivity|apply keeps_keys_refl]. }
  destruct (set_returns h t p v Hrefs Ht) as (r & h1 & Hset & Hrefs1 & Hlen & Hk1).
  { intros b ->. apply (Hin p). now left. }
  destruct (IH h1 Hrefs1 ltac:(lia)) as (h' & Hrest & Hk2).
  { intros p' b' Hin'. assert (b' < length h) by (apply (Hin p'); now right). lia. }
  exists h'. split; [|eapply keeps_keys_trans; eauto].
  cbn [for_of]. unfold bind at 1, bind at 1. rewrite Hset. exact Hrest.
Qed.

(** The loop of map for a callback without effects. *)
Lemma map_loop t (f : string -> jsvalue -> jsvalue) entries :
  forall h : heap,
    refs_inside h ->
    t < length h ->
    (forall p v, In (p, v) entries -> points_inside h (f p v) = true) ->
    exists h',
      Objmod.for_each entries
        (fun value path =>
           do new <- ret (f path value);
           run Objmod.set (VObject t) path new;
           ret tt) h
      = Ok (tt, h')
      /\ keeps_keys h h'.
Proof.
  unfold Objmod.for_each.
  induction entries as [|[p v] entries IH]; intros h Hrefs Ht Hin.
  { exists h. split; [reflexivity|apply keeps_keys_refl]. }
  destruct (set_returns h t p (f p v) Hrefs Ht)
    as (r & h1 & Hset & Hrefs1 & Hlen & Hk1).
  { intros b Hb. specialize (Hin p v ltac:(now left)). rewrite Hb in Hin.
    now apply Nat.ltb_lt in Hin. }
  destruct (IH h1 Hrefs1 ltac:(lia)) as (h' & Hrest & Hk2).
  { intros p' v' Hin'. specialize (Hin p' v' ltac:(now right)).
    destruct (f p' v'); try reflexivity. cbn in *.
    apply Nat.ltb_lt in Hin. apply Nat.ltb_lt. lia. }
  exists h'. split; [|eapply keeps_keys_trans; eauto].
  cbn [for_of]. unfold bind at 1, bind at 1, ret at 1, bind at 1.
  rewrite Hset. exact Hrest.
Qed.

End Bulk.

(** ** The enumeration against the reads *)

Section Completeness.

Variable h : heap.

(** Whatever a chain of keys leads to is enumerated under the joined path. *)
Lemma resolve_enumerated ks :
  forall n l prefix x,
    ks <> [] ->
    finite_depth n h (VObject l) = true ->
    resolve h ks (VObject l) = Some x ->
    In (path_of prefix ks, x) (spec_preorder n h prefix (VObject l)).
Proof.
  induction ks as [|k ks IH]; intros n l prefix x Hne Hdepth Hres; [now destruct Hne|].
  destruct n as [|n]; [discriminate|].
  cbn [resolve] in Hres.
  destruct (prop_lookup k (h !!! l)) as [child|] eqn:Hk; [|discriminate].
  pose proof (finite_depth_child h _ _ _ _ Hdepth Hk) as Hchild.
  cbn [spec_preorder]. apply in_flat_map. exists (k, child).
  split; [now apply prop_lookup_in|]. cbn [fst snd].
  destruct ks as [|k' ks].
  - left. injection Hres as ->. reflexivity.
  - right. destruct child as [| |b|z|s|l']; try discriminate.
    apply (IH n l' (join_path prefix k) x); [discriminate|assumption..].
Qed.

(** With plain keys only plain segments resolve. *)
Lemma resolve_plain ks :
  forall n v x,
    finite_depth n h v = true ->
    plain_keys n h v = true ->
    resolve h ks v = Some x ->
    forallb nonempty ks = true.
Proof.
  induction ks as [|k ks IH]; intros n v x Hdepth Hkeys Hres; [reflexivity|].
  cbn [resolve] in Hres. destruct v as [| |b|z|s|l]; try discriminate.
  destruct (prop_lookup k (h !!! l)) as [child|] eqn:Hk; [|discriminate].
  destruct n as [|n]; [discriminate|].
  pose proof (finite_depth_child h _ _ _ _ Hdepth Hk) as Hchild.
  cbn [plain_keys] in Hkeys. apply andb_true_iff in Hkeys as [_ Hall].
  rewrite forallb_forall in Hall.
  pose proof (Hall _ (prop_lookup_in _ _ _ Hk)) as [Hplain Hck]%andb_true_iff.
  cbn [fst snd] in *. apply andb_true_iff in Hplain as [Hne _].
  cbn [forallb]. rewrite Hne. cbn. exact (IH n child x Hchild Hck Hres).
Qed.

End Completeness.

Lemma prop_lookup_nodup k v (m : jsmap) :
  NoDup (List.map fst m) -> In (k, v) m -> prop_lookup k m = Some v.
Proof.
  induction m as [|[k' v'] m IH]; cbn; [easy|].
  intros [Hfresh Hnd]%NoDup_cons [[= -> ->]|Hin].
  - now rewrite String.eqb_refl.
  - destruct (String.eqb_spec k k') as [->|Hne]; [|auto].
    exfalso. apply Hfresh, list_elem_of_In. change k' with (fst (k', v)).
    now apply in_map.
Qed.

(** On objects with plain keys the enumeration holds, at every path,
    exactly what the path resolves to. *)
Lemma enumeration_exact n (h : heap) l p :
  finite_depth n h (VObject l) = true ->
  plain_keys n h (VObject l) = true ->
  map_get p (spec_preorder n h "" (VObject l))
  = resolve h (split "." p) (VObject l).
Proof.
  intros Hdepth Hkeys.
  destruct (resolve h (split "." p) (VObject l)) as [x|] eqn:Hres.
  - pose proof (resolve_plain h _ _ _ _ Hdepth Hkeys Hres) as Hplain.
    pose proof (resolve_enumerated h _ n l "" x (split_not_nil _ _) Hdepth Hres)
      as Hin.
    rewrite path_of_split in Hin by exact Hplain.
    apply prop_lookup_nodup; [|exact Hin].
    now apply preorder_paths_distinct.
  - destruct (map_get p (spec_preorder n h "" (VObject l))) as [x|] eqn:Hget;
      [|reflexivity].
    apply prop_lookup_in in Hget.
    destruct (preorder_resolve h _ _ _ _ _ Hkeys Hget) as (ks & Hne & Hsegs & Hks).
    cbn [segments_of nonempty String.eqb negb app] in Hsegs.
    rewrite <- segments_nonempty, Hsegs, Hks in Hres by congruence. discriminate.
Qed.

(** The paths of scan are the paths has accepts, and scan holds at each
    what get reads there. *)
Lemma scan_matches_reads n fuel (h : heap) l :
  n <= fuel ->
  finite_depth n h (VObject l) = true ->
  plain_keys n h (VObject l) = true ->
  exists m,
    Objmod.scan fuel (VObject l) "" [] h = Ok (m, h)
    /\ (forall p, Objmod.has (VObject l) p h = Ok (map_has p m, h))
    /\ (forall p d,
          Objmod.get (VObject l) p d h = Ok (default d (map_get p m), h)).
Proof.
  intros Hfuel Hdepth Hkeys. eexists. split; [now apply (scan_plain h n)|].
  split.
  - intros p. unfold Objmod.has, map_has, prop_mem. rewrite has_loop_resolve.
    change (prop_lookup p ?m) with (map_get p m).
    rewrite (enumeration_exact n) by assumption.
    now destruct (resolve h (split "." p) (VObject l)).
  - intros p d. rewrite get_resolve, (enumeration_exact n) by assumption.
    reflexivity.
Qed.

(** ** The index of the cache *)

Section CacheIndex.

Lemma map_set_get k v (m : jsmap) q :
  map_get q (map_set k v m) = if q =? k then Some v else map_get q m.
Proof.
  unfold map_get.
  induction m as [|[k' v'] m IH]; cbn.
  - now destruct (q =? k).
  - destruct (String.eqb_spec k k') as [->|Hne]; cbn.
    + now destruct (q =? k').
    + rewrite IH. destruct (String.eqb_spec q k') as [->|]; [|reflexivity].
      destruct (String.eqb_spec k' k); [congruence|reflexivity].
Qed.

Lemma map_set_keys k v (m : jsmap) :
  NoDup (List.map fst m) -> NoDup (List.map fst (map_set k v m)).
Proof.
  induction m as [|[k' v'] m IH]; cbn; [intros _; repeat constructor; easy|].
  intros [Hfresh Hnd]%NoDup_cons.
  destruct (String.eqb_spec k k') as [->|Hne]; cbn.
  - now apply NoDup_cons.
  - apply NoDup_cons. split; [|auto].
    intros Hin%list_elem_of_In%in_map_iff. destruct Hin as [[k0 v0] [Hk0 Hin]].
    cbn in Hk0. subst k0.
    destruct (map_set_in _ _ _ _ Hin) as [[= -> _]|Hold]; [congruence|].
    apply Hfresh, list_elem_of_In. change k' with (fst (k', v0)). now apply in_map.
Qed.

(** A [Map] never holds a key twice. *)
Lemma map_set_all_keys entries :
  forall m : jsmap,
    NoDup (List.map fst m) -> NoDup (List.map fst (map_set_all entries m)).
Proof.
  induction entries as [|[k v] entries IH]; intros m Hnd; [exact Hnd|].
  apply IH. now apply map_set_keys.
Qed.

(** Copying a [Map] entry by entry into an empty one gives it back. *)
Lemma map_copy entries :
  map_set_all (map_set_all entries []) [] = map_set_all entries [].
Proof.
  apply (map_set_all_fresh _ []). cbn [app].
  apply map_set_all_keys. constructor.
Qed.

Lemma cache_get_hit c p x d h :
  map_get p (Objmod.c_map c) = Some x ->
  Objmod.cache_get c p d h = Ok ((x, c), h).
Proof.
  intros Hget. unfold Objmod.cache_get, map_has, prop_mem.
  change (prop_lookup p ?m) with (map_get p m). now rewrite Hget.
Qed.

End CacheIndex.

(** Unfolds a [c.get(path)] whose lookup in the index is known by [H]. *)
Ltac cache_lookup H :=
  unfold Objmod.cache_get, map_has, prop_mem, map_get; cbn; rewrite H.

(** ** The properties *)

(** C1 (set then get and has). The documented call
    [set(obj, "name", "amir")] does not leave "amir" at [name]: the loop of
    set runs over every segment, the last one included, so it replaces
    [obj.name] by a fresh object and stores the value one level too deep,
    under [name.name]. After the call get reads that fresh object at
    [name], not "amir"; has is true. The same happens on every closed
    heap without cycles below the root and for every path of non-empty
    segments that are no names of the prototypes: has finds the path, get
    reads a container there, and the value is found by repeating the last
    segment. *)
Theorem set_stores_one_level_too_deep :
  (run Objmod.set (VObject 0) "name" (VString "amir");
   do read <- Objmod.get (VObject 0) "name" VUndefined;
   do below <- Objmod.get (VObject 0) "name.name" VUndefined;
   do present <- Objmod.has (VObject 0) "name";
   ret (read, below, present)) city_heap
  = Ok ((VObject 2, VString "amir", true),
        [ [("name", VObject 2); ("city", VObject 1)];
          [("name", VString "mashhad"); ("code", VString "051")];
          [("name", VString "amir")] ])
  /\ forall n (h : heap) l p v d,
      closed h = true ->
      l < length h ->
      finite_depth n h (VObject l) = true ->
      forallb nonempty (split "." p) = true ->
      own_path p = true ->
      exists c hf,
        Objmod.set (VObject l) p v h = Ok (VUndefined, hf)
        /\ Objmod.has (VObject l) p hf = Ok (true, hf)
        /\ Objmod.get (VObject l) p d hf = Ok (VObject c, hf)
        /\ resolve hf (split "." p ++ [last_key (split "." p)]) (VObject l)
           = Some v.
Proof. split; [reflexivity|]. intros. now apply (set_then_read n). Qed.

Lemma set_stores_one_level_too_deep_witness :
  exists c hf,
    Objmod.set (VObject 0) "city.alias" (VString "m") city_heap
    = Ok (VUndefined, hf)
    /\ Objmod.has (VObject 0) "city.alias" hf = Ok (true, hf)
    /\ Objmod.get (VObject 0) "city.alias" VUndefined hf = Ok (VObject c, hf)
    /\ resolve hf ["city"; "alias"; "alias"] (VObject 0) = Some (VString "m").
Proof.
  apply (proj2 set_stores_one_level_too_deep 2 city_heap 0 "city.alias"
           (VString "m") VUndefined);
    [reflexivity|cbn; lia|reflexivity|reflexivity|reflexivity].
Defined.

(** C2 (del then has). The documented call [del(obj, "age")] returns
    undefined and changes nothing, because the loop of del gives up on a
    final segment that holds a non-container: has is still true after it.
    Below a root without cycles has answers after del what it answered
    before, for every path whose segments are no names of the prototypes.
    The other half of the claim holds on every heap for these paths: a
    second del of the same path returns undefined and changes nothing. *)
Theorem del_keeps_leaf :
  (do first <- Objmod.del (VObject 0) "age";
   do present <- Objmod.has (VObject 0) "age";
   do second <- Objmod.del (VObject 0) "age";
   ret (first, present, second)) example_heap
  = Ok ((VUndefined, true, VUndefined), example_heap)
  /\ (forall n (h : heap) l p,
        finite_depth n h (VObject l) = true ->
        own_path p = true ->
        exists r hf b,
          Objmod.del (VObject l) p h = Ok (r, hf)
          /\ Objmod.has (VObject l) p h = Ok (b, h)
          /\ Objmod.has (VObject l) p hf = Ok (b, hf))
  /\ (forall (h : heap) l p,
        own_path p = true ->
        match Objmod.del (VObject l) p h with
        | Ok (_, h1) => Objmod.del (VObject l) p h1 = Ok (VUndefined, h1)
        | _ => False
        end).
Proof.
  split; [reflexivity|]. split; [|intros h l p _; apply del_twice].
  intros n h l p Hdepth _. now apply (del_keeps_has n).
Qed.

Lemma del_keeps_leaf_witness :
  (exists r hf b,
     Objmod.del (VObject 0) "city" example_heap = Ok (r, hf)
     /\ Objmod.has (VObject 0) "city" example_heap = Ok (b, example_heap)
     /\ Objmod.has (VObject 0) "city" hf = Ok (b, hf))
  /\ match Objmod.del (VObject 0) "city" example_heap with
     | Ok (_, h1) => Objmod.del (VObject 0) "city" h1 = Ok (VUndefined, h1)
     | _ => False
     end.
Proof.
  split.
  - apply (proj1 (proj2 del_keeps_leaf) 2 example_heap 0 "city"); reflexivity.
  - apply (proj2 (proj2 del_keeps_leaf) example_heap 0 "city"). reflexivity.
Defined.

(** C3 (what del returns and removes). At [age], a path whose segments
    are all present, del returns undefined instead of the stored 21 and
    leaves [age] in place; at [city], a container, it walks into the
    container and assigns undefined to a new key [city] inside it. In
    general, for a path whose segments are no names of the prototypes, del
    changes nothing and returns undefined unless the whole path leads to a
    container [c]; then it assigns undefined to the key of [c] named like
    the last segment and returns what that key held. *)
Theorem del_walks_past_the_parent :
  Objmod.del (VObject 0) "age" example_heap = Ok (VUndefined, example_heap)
  /\ Objmod.del (VObject 0) "city" city_heap
     = Ok (VUndefined,
           [ [("name", VString "mahdi"); ("city", VObject 1)];
             [("name", VString "mashhad"); ("code", VString "051");
              ("city", VUndefined)] ])
  /\ forall (h : heap) l p,
      own_path p = true ->
      Objmod.del (VObject l) p h
      = match walk_target h (split "." p) (VObject l) with
        | Some (VObject c) =>
            let k := last_key (split "." p) in
            Ok (default VUndefined (prop_lookup k (h !!! c)),
                <[c := prop_put k VUndefined (h !!! c)]> h)
        | _ => Ok (VUndefined, h)
        end.
Proof.
  split; [reflexivity|]. split; [reflexivity|].
  intros h l p _. apply del_effect.
Qed.

Lemma del_walks_past_the_parent_witness :
  Objmod.del (VObject 0) "city" example_heap
  = Ok (VUndefined,
        [ [("name", VString "mahdi"); ("age", VNumber 21);
           ("skills", VObject 1); ("city", VObject 2)];
          [("0", VString "js"); ("1", VString "ts"); ("2", VString "html")];
          [("name", VString "mashhad"); ("code", VString "051");
           ("city", VUndefined)] ]).
Proof.
  apply (proj2 (proj2 del_walks_past_the_parent) example_heap 0 "city").
  reflexivity.
Defined.

(** C4 (result of set). set returns [false] on the empty path, and on
    every other path it ends without a [return]: the result is undefined,
    never [true], also for a path of separators only, which has no
    segment and is stored under the key "undefined". Whenever set
    returns, its result is [false] for the empty path and undefined for
    any other. *)
Theorem set_never_returns_true :
  Objmod.set (VObject 0) "" (VString "amir") city_heap
  = Ok (VBool false, city_heap)
  /\ Objmod.set (VObject 0) "name" (VString "amir") city_heap
     = Ok (VUndefined,
           [ [("name", VObject 2); ("city", VObject 1)];
             [("name", VString "mashhad"); ("code", VString "051")];
             [("name", VString "amir")] ])
  /\ Objmod.set (VObject 0) "." (VNumber 1) [[]]
     = Ok (VUndefined, [[("undefined", VNumber 1)]])
  /\ forall (h : heap) obj p v,
      match Objmod.set obj p v h with
      | Ok (r, _) => r = if nonempty p then VUndefined else VBool false
      | _ => True
      end.
Proof. repeat split. apply set_result. Qed.

(** C5. On the root [{name:"mahdi", city:{name:"mashhad", code:"051"}}]
    scan yields name, city, city.name, city.code in this order, city with
    the city container itself. In general, on a root with no cycle below
    it, scan returns the [Map] written entry by entry in pre-order: the
    entry of a child, then the entries below it, the children of one
    container in the order of its keys. When moreover the keys are
    distinct, non-empty and free of the separator, no path is written
    twice and the [Map] lists exactly the pre-order enumeration. *)
Theorem scan_is_preorder :
  Objmod.scan 2 (VObject 0) "" [] city_heap
  = Ok ([("name", VString "mahdi"); ("city", VObject 1);
         ("city.name", VString "mashhad"); ("city.code", VString "051")],
        city_heap)
  /\ (forall n fuel (h : heap) l,
        n <= fuel ->
        finite_depth n h (VObject l) = true ->
        Objmod.scan fuel (VObject l) "" [] h
        = Ok (map_set_all (spec_preorder n h "" (VObject l)) [], h))
  /\ (forall n fuel (h : heap) l,
        n <= fuel ->
        finite_depth n h (VObject l) = true ->
        plain_keys n h (VObject l) = true ->
        Objmod.scan fuel (VObject l) "" [] h
        = Ok (spec_preorder n h "" (VObject l), h)).
Proof.
  split; [reflexivity|]. split.
  - intros n fuel h l Hfuel Htree. now apply scan_preorder.
  - intros n fuel h l Hfuel Htree Hkeys. now apply scan_plain.
Qed.

Lemma scan_is_preorder_witness :
  2 <= 3
  /\ finite_depth 2 example_heap (VObject 0) = true
  /\ plain_keys 2 example_heap (VObject 0) = true
  /\ Objmod.scan 3 (VObject 0) "" [] example_heap
     = Ok ([("name", VString "mahdi"); ("age", VNumber 21);
            ("skills", VObject 1); ("skills.0", VString "js");
            ("skills.1", VString "ts"); ("skills.2", VString "html");
            ("city", VObject 2); ("city.name", VString "mashhad");
            ("city.code", VString "051")], example_heap).
Proof.
  split; [lia|]. split; [reflexivity|]. split; [reflexivity|].
  apply (proj2 (proj2 scan_is_preorder) 2 3 example_heap 0);
    [lia|reflexivity|reflexivity].
Defined.

(** C6 (merge). For the documented [merge({ a: 1 }, { b: { c: 2 } })] the
    leaf path [b.c] exists only in the source, where get reads 2; in the
    merged target get reads a fresh object there, because every set of the
    merge stores its value one level too deep. For [merge({a: 1}, {a: 2})]
    the leaf path [a] exists on both sides, and the target ends with a
    fresh object at [a], not with the 2 of the source. *)
Theorem merge_misplaces_source_leaf :
  (run Objmod.merge 2 (VObject 0) (VObject 1);
   do merged <- Objmod.get (VObject 0) "b.c" VUndefined;
   do source <- Objmod.get (VObject 1) "b.c" VUndefined;
   ret (merged, source)) merge_heap
  = Ok ((VObject 4, VNumber 2),
        [ [("a", VNumber 1); ("b", VObject 3)];
          [("b", VObject 2)];
          [("c", VNumber 2)];
          [("b", VObject 2); ("c", VObject 4)];
          [("c", VNumber 2)] ])
  /\ (run Objmod.merge 1 (VObject 0) (VObject 1);
      do merged <- Objmod.get (VObject 0) "a" VUndefined;
      do source <- Objmod.get (VObject 1) "a" VUndefined;
      ret (merged, source)) clash_heap
     = Ok ((VObject 2, VNumber 2),
           [ [("a", VObject 2)]; [("a", VNumber 2)]; [("a", VNumber 2)] ]).
Proof. split; reflexivity. Qed.

(** C7 (map with the identity). On the flat [{a: 1}] the enumeration is
    [a -> 1] before and [a -> object, a.a -> 1] after two passes of map
    with the identity callback. On [{name:"mahdi", city:{...}}] one pass
    wraps every leaf in a fresh object and stores the city container under
    a key [city] of itself. *)
Theorem map_identity_changes_scan :
  (do before <- Objmod.scan 3 (VObject 0) "" [];
   run Objmod.map 3 (VObject 0) identity;
   run Objmod.map 3 (VObject 0) identity;
   do after <- Objmod.scan 3 (VObject 0) "" [];
   ret (before, after)) [[("a", VNumber 1)]]
  = Ok (([("a", VNumber 1)], [("a", VObject 1); ("a.a", VNumber 1)]),
        [ [("a", VObject 1)]; [("a", VNumber 1)] ])
  /\ Objmod.map 3 (VObject 0) identity city_heap
     = Ok (tt,
           [ [("name", VObject 2); ("city", VObject 1)];
             [("name", VObject 3); ("code", VObject 4); ("city", VObject 1)];
             [("name", VString "mahdi")];
             [("name", VString "mashhad")];
             [("code", VString "051")] ]).
Proof. split; reflexivity. Qed.

(** C8. Let [c = cache(r)] and let [p] be indexed in [c]. After the heap
    has been changed behind the back of the cache, [c.get(p)] still returns
    the value that get read at [p] before the change and leaves the index
    as it was; after [c.refresh()], [c.get(p)] returns what get reads at
    [p] in the changed heap. Before and after the change there is no
    cycle below [r] and the keys of each object are distinct, non-empty
    and free of the separator. *)
Theorem cache_stale_until_refresh
  n n' fuel fuel' (h h' : heap) (l : loc) (p : string) (d : jsvalue) :
  n <= fuel -> n' <= fuel' ->
  finite_depth n h (VObject l) = true ->
  plain_keys n h (VObject l) = true ->
  finite_depth n' h' (VObject l) = true ->
  plain_keys n' h' (VObject l) = true ->
  exists c,
    Objmod.cache fuel (VObject l) h = Ok (c, h)
    /\ (Objmod.cache_has c p = true ->
        exists stale c' current c'',
          Objmod.get (VObject l) p d h = Ok (stale, h)
          /\ Objmod.cache_get c p d h' = Ok ((stale, c), h')
          /\ Objmod.cache_refresh fuel' c h' = Ok (c', h')
          /\ Objmod.cache_get c' p d h' = Ok ((current, c''), h')
          /\ Objmod.get (VObject l) p d h' = Ok (current, h')).
Proof.
  intros Hfuel Hfuel' Htree Hkeys Htree' Hkeys'.
  eexists. split; [now apply (cache_built h n)|].
  unfold Objmod.cache_has, map_has, prop_mem. cbn [Objmod.c_map].
  destruct (prop_lookup p (map_set_all (spec_preorder n h "" (VObject l)) []))
    as [stale|] eqn:Hidx; [intros _|discriminate].
  pose proof (cache_refreshed h' n' fuel' l
                (map_set_all (spec_preorder n h "" (VObject l)) [])
                Hfuel' Htree') as Hrefresh.
  set (index' := map_set_all (map_set_all _ []) []) in Hrefresh.
  destruct (prop_lookup p index') as [current|] eqn:Hidx'.
  - exists stale, {| Objmod.c_obj := VObject l; Objmod.c_map := index' |},
      current, {| Objmod.c_obj := VObject l; Objmod.c_map := index' |}.
    split; [now apply (indexed_get h n)|].
    split; [now cache_lookup Hidx|].
    split; [exact Hrefresh|].
    split; [now cache_lookup Hidx'|].
    apply (preorder_get h' n'); [assumption|].
    apply prop_lookup_in in Hidx'.
    destruct (map_set_all_in _ _ _ Hidx') as [Hin|[]].
    destruct (map_set_all_in _ _ _ Hin) as [?|[]]. assumption.
  - exists stale, {| Objmod.c_obj := VObject l; Objmod.c_map := index' |}.
    eexists. eexists.
    split; [now apply (indexed_get h n)|].
    split; [now cache_lookup Hidx|].
    split; [exact Hrefresh|].
    split.
    + cache_lookup Hidx'. unfold bind. rewrite get_resolve. reflexivity.
    + apply get_resolve.
Qed.

Lemma cache_stale_until_refresh_witness :
  exists c stale c' current c'',
    Objmod.cache 2 (VObject 0) example_heap = Ok (c, example_heap)
    /\ Objmod.cache_has c "name" = true
    /\ Objmod.get (VObject 0) "name" VUndefined example_heap
       = Ok (stale, example_heap)
    /\ Objmod.cache_get c "name" VUndefined renamed_heap
       = Ok ((stale, c), renamed_heap)
    /\ Objmod.cache_refresh 2 c renamed_heap = Ok (c', renamed_heap)
    /\ Objmod.cache_get c' "name" VUndefined renamed_heap
       = Ok ((current, c''), renamed_heap)
    /\ Objmod.get (VObject 0) "name" VUndefined renamed_heap
       = Ok (current, renamed_heap)
    /\ stale = VString "mahdi"
    /\ current = VString "amir".
Proof.
  destruct (cache_stale_until_refresh 2 2 2 2 example_heap renamed_heap 0
              "name" VUndefined) as (c & Hc & Hidx);
    try lia; try reflexivity.
  assert (Hhas : Objmod.cache_has c "name" = true).
  { vm_compute in Hc. injection Hc as <-. reflexivity. }
  destruct (Hidx Hhas) as (stale & c' & current & c'' & H1 & H2 & H3 & H4 & H5).
  exists c, stale, c', current, c''. repeat split; try assumption.
  - vm_compute in H1. congruence.
  - vm_compute in H5. congruence.
Defined.

(** C9. [get(r, p, d)] never raises, whatever the value [r], the path
    string and the default: it returns normally. Where a segment fails the
    test of the loop (the current value is not a container, or the key is
    not [in] it), which is where has answers false, the result is [d];
    with [d] omitted it is undefined. For a path whose segments are no
    names of the prototypes the key is [in] a container exactly when the
    container owns it, and the result is the value the segments resolve to
    through own properties, or [d] as soon as one does not resolve. *)
Theorem get_total_with_default (h : heap) (r : jsvalue) (p : string) (d : jsvalue) :
  (exists v, Objmod.get r p d h = Ok (v, h))
  /\ (Objmod.has r p h = Ok (false, h) -> Objmod.get r p d h = Ok (d, h))
  /\ (own_path p = true ->
      Objmod.get r p d h
      = Ok (match resolve h (split "." p) r with
            | Some v => v
            | None => d
            end, h)).
Proof.
  split; [eexists; apply get_resolve|]. split.
  - unfold Objmod.has. rewrite has_loop_resolve, get_resolve.
    destruct (resolve h (split "." p) r); [discriminate|reflexivity].
  - intros _. rewrite get_resolve. now destruct (resolve _ _ _).
Qed.

Lemma get_total_with_default_witness :
  Objmod.get (VObject 0) "city.zip.code" (VString "none") example_heap
  = Ok (VString "none", example_heap)
  /\ Objmod.get (VObject 0) "city.code" (VString "none") example_heap
     = Ok (VString "051", example_heap).
Proof.
  split.
  - apply (proj1 (proj2 (get_total_with_default example_heap (VObject 0)
                           "city.zip.code" (VString "none")))).
    reflexivity.
  - apply (proj2 (proj2 (get_total_with_default example_heap (VObject 0)
                           "city.code" (VString "none")))).
    reflexivity.
Defined.

(** C10. [get(r, p, d)] and [has(r, p)] return with the heap they were
    called in: no object, the root included, is changed by a read. *)
Theorem reads_do_not_mutate (h : heap) (r : jsvalue) (p : string) (d : jsvalue) :
  (exists v, Objmod.get r p d h = Ok (v, h))
  /\ (exists b, Objmod.has r p h = Ok (b, h)).
Proof.
  split.
  - eexists. unfold Objmod.get. apply get_loop_resolve.
  - eexists. unfold Objmod.has. apply has_loop_resolve.
Qed.

(** ** Further properties *)

(** X1. has tells when get falls back to the default. Both return and
    leave the heap as it is; where has answers false, get returns its
    default; where has answers true, get returns one and the same value
    whatever default it is given. *)
Theorem has_decides_get_default (h : heap) r p d :
  exists b x,
    Objmod.has r p h = Ok (b, h)
    /\ Objmod.get r p d h = Ok (x, h)
    /\ if b
       then forall d', Objmod.get r p d' h = Ok (x, h)
       else x = d.
Proof.
  unfold Objmod.has. rewrite has_loop_resolve, get_resolve.
  eexists _, _. split; [reflexivity|]. split; [reflexivity|].
  destruct (resolve h (split "." p) r) as [x|] eqn:Hres; cbn.
  - intros d'. now rewrite get_resolve, Hres.
  - reflexivity.
Qed.

(** X2. The older set followed by get: on a closed heap without cycles
    below the root and a path of non-empty segments that are no names of
    the prototypes, set answers [true], get then reads the value that was
    set and has finds the path. *)
Theorem legacy_set_get_roundtrip n (h : heap) l p v d :
  closed h = true ->
  l < length h ->
  finite_depth n h (VObject l) = true ->
  forallb nonempty (split "." p) = true ->
  own_path p = true ->
  exists hf,
    Legacy.set (VObject l) p v h = Ok (VBool true, hf)
    /\ Legacy.get (VObject l) p d hf = Ok (v, hf)
    /\ Legacy.has (VObject l) p hf = Ok (true, hf).
Proof.
  intros Hclosed Hl Hdepth Hvalid _.
  pose proof (split_not_nil "." p) as Hne.
  pose proof (legacy_set_segments (VObject l) p v h) as Hset.
  rewrite (filter_all _ _ Hvalid) in Hset. specialize (Hset Hne).
  set (address := split "." p) in *.
  set (init := take (length address - 1) address) in *.
  set (k := last_key address) in *.
  assert (Haddr : address = init ++ [k]) by now apply init_last.
  destruct (set_loop_effect init l h (closed_refs_inside _ Hclosed) Hl)
    as (c & h' & Hloop & Hres & Hc & _ & _ & Hdeep).
  pose proof (walk_survives h' c k v _ _ _ (Hdeep _ _ Hdepth) Hres) as Hres'.
  assert (Hfinal : resolve (<[c := prop_put k v (h' !!! c)]> h') address (VObject l)
                   = Some v).
  { rewrite Haddr, resolve_app, Hres'. cbn [resolve].
    now rewrite final_write_read. }
  eexists. split; [|split].
  - rewrite Hset. unfold bind. rewrite Hloop. reflexivity.
  - rewrite legacy_get, get_resolve. fold address. now rewrite Hfinal.
  - rewrite legacy_has. unfold Objmod.has. fold address.
    now rewrite has_loop_resolve, Hfinal.
Qed.

Lemma legacy_set_get_roundtrip_witness :
  exists hf,
    Legacy.set (VObject 0) "city.alias" (VString "m") city_heap
    = Ok (VBool true, hf)
    /\ Legacy.get (VObject 0) "city.alias" VUndefined hf = Ok (VString "m", hf)
    /\ Legacy.has (VObject 0) "city.alias" hf = Ok (true, hf).
Proof.
  apply (legacy_set_get_roundtrip 2 city_heap 0 "city.alias" (VString "m")
           VUndefined);
    [reflexivity|cbn; lia|reflexivity|reflexivity|reflexivity].
Defined.

(** X3. The answer of the older set, on a closed heap and for a path
    whose segments are no names of the prototypes: [true] exactly when the
    path has a non-empty segment, whichever separators surround it; on a
    path without one ([""], ["."], [".."]) the answer is [false] and
    nothing is written. *)
Theorem legacy_set_answer (h : heap) l p v :
  closed h = true ->
  l < length h ->
  own_path p = true ->
  exists h',
    Legacy.set (VObject l) p v h
    = Ok (VBool (negb (length (List.filter nonempty (split "." p)) =? 0)%nat), h')
    /\ (List.filter nonempty (split "." p) = [] -> h' = h).
Proof.
  intros Hclosed Hl _.
  destruct (List.filter nonempty (split "." p)) as [|k ks] eqn:Haddr.
  - exists h. split; [|reflexivity]. unfold Legacy.set. rewrite Haddr.
    now destruct (nonempty p).
  - pose proof (legacy_set_segments (VObject l) p v h) as Hset.
    rewrite Haddr in Hset. specialize (Hset ltac:(discriminate)).
    destruct (set_loop_effect (take (length (k :: ks) - 1) (k :: ks)) l h
                (closed_refs_inside _ Hclosed) Hl)
      as (c & h' & Hloop & _).
    eexists. split; [|discriminate].
    rewrite Hset. unfold bind. rewrite Hloop. reflexivity.
Qed.

Lemma legacy_set_answer_witness :
  (exists h',
     Legacy.set (VObject 0) ".city..zip." (VString "m") city_heap
     = Ok (VBool true, h')
     /\ (List.filter nonempty (split "." ".city..zip.") = [] -> h' = city_heap))
  /\ (exists h',
        Legacy.set (VObject 0) ".." (VString "m") city_heap = Ok (VBool false, h')
        /\ (List.filter nonempty (split "." "..") = [] -> h' = city_heap)).
Proof.
  split.
  - apply (legacy_set_answer city_heap 0 ".city..zip." (VString "m"));
      [reflexivity|cbn; lia|reflexivity].
  - apply (legacy_set_answer city_heap 0 ".." (VString "m"));
      [reflexivity|cbn; lia|reflexivity].
Defined.

(** X4. Two calls of the older set on one path, on a closed heap without
    cycles below the root and a path of non-empty segments that are no
    names of the prototypes: both answer [true] and get reads the second
    value, whatever the first one was. *)
Theorem legacy_set_last_write_wins n (h : heap) l p v1 v2 d :
  closed h = true ->
  l < length h ->
  finite_depth n h (VObject l) = true ->
  forallb nonempty (split "." p) = true ->
  own_path p = true ->
  exists h1 h2,
    Legacy.set (VObject l) p v1 h = Ok (VBool true, h1)
    /\ Legacy.set (VObject l) p v2 h1 = Ok (VBool true, h2)
    /\ Legacy.get (VObject l) p d h2 = Ok (v2, h2).
Proof.
  intros Hclosed Hl Hdepth Hvalid _.
  pose proof (split_not_nil "." p) as Hne.
  assert (Hset : forall v h0, Legacy.set (VObject l) p v h0
            = (do value <- Objmod.set_loop
                             (take (length (split "." p) - 1) (split "." p))
                             (VObject l);
               run js_put value (last_key (split "." p)) v;
               ret (VBool true)) h0).
  { intros v h0. pose proof (legacy_set_segments (VObject l) p v h0) as H0.
    rewrite (filter_all _ _ Hvalid) in H0. exact (H0 Hne). }
  pose proof (init_last _ Hne) as Haddr.
  set (init := take (length (split "." p) - 1) (split "." p)) in *.
  set (k := last_key (split "." p)) in *.
  destruct (set_loop_effect init l h (closed_refs_inside _ Hclosed) Hl)
    as (c & h' & Hloop & Hres & Hc & _ & _ & Hdeep).
  pose proof (Hdeep _ _ Hdepth) as Hdepth'.
  pose proof (walk_survives_any h' c (prop_put k v1 (h' !!! c)) _ _ _ Hdepth' Hres)
    as Hres1.
  eexists _, _. split; [|split].
  - rewrite Hset. unfold bind. rewrite Hloop. reflexivity.
  - rewrite Hset. unfold bind. rewrite (set_loop_existing _ _ _ _ Hres1).
    reflexivity.
  - rewrite legacy_get, get_resolve, Haddr, resolve_app.
    rewrite list_insert_insert_eq.
    rewrite (walk_survives_any h' c _ _ _ _ Hdepth' Hres). cbn [resolve].
    rewrite !list_lookup_total_insert_eq by exact Hc.
    now rewrite prop_put_lookup, String.eqb_refl.
Qed.

Lemma legacy_set_last_write_wins_witness :
  exists h1 h2,
    Legacy.set (VObject 0) "city.name" (VObject 0) city_heap
    = Ok (VBool true, h1)
    /\ Legacy.set (VObject 0) "city.name" (VString "tus") h1
       = Ok (VBool true, h2)
    /\ Legacy.get (VObject 0) "city.name" VUndefined h2
       = Ok (VString "tus", h2).
Proof.
  apply (legacy_set_last_write_wins 2 city_heap 0 "city.name" (VObject 0)
           (VString "tus") VUndefined);
    [reflexivity|cbn; lia|reflexivity|reflexivity|reflexivity].
Defined.

(** X5. The current set is the older set one level deeper: on a path
    with a non-empty segment it leaves the heap the older set leaves on the
    same path with its last segment written once more, and fails where the
    older one fails; only the answer differs. *)
Theorem set_is_legacy_set_one_deeper obj p v h :
  let address := List.filter nonempty (split "." p) in
  existsb nonempty (split "." p) = true ->
  Legacy.set obj (p +:+ "." +:+ last_key address) v h
  = (run Objmod.set obj p v; ret (VBool true)) h.
Proof.
  intros address Hsome.
  assert (Hne : address <> []) by now apply filter_existsb.
  set (k := last_key address).
  assert (Hk : nonempty k = true).
  { apply last_key_nonempty; [exact Hne|apply filter_nonempty_all]. }
  assert (Hdf : dot_free k = true).
  { apply last_key_dot_free. unfold address.
    pose proof (split_segments_dot_free p) as Hall.
    rewrite Forall_forall in *. intros s Hs. apply Hall.
    apply list_elem_of_In in Hs. apply filter_In in Hs as [Hs _].
    now apply list_elem_of_In. }
  assert (Haddr : List.filter nonempty (split "." (p +:+ "." +:+ k))
                  = address ++ [k]).
  { change ("." +:+ k) with (String "." k).
    rewrite split_append, List.filter_app, (split_dot_free _ Hdf).
    cbn [List.filter]. now rewrite Hk. }
  pose proof (legacy_set_segments obj (p +:+ "." +:+ k) v h) as Hset.
  rewrite Haddr in Hset. cbv zeta in Hset.
  rewrite Hset by (destruct address; discriminate).
  rewrite take_snoc_init, last_key_snoc.
  assert (Hp : nonempty p = true).
  { destruct p; [|reflexivity]. now destruct Hne. }
  unfold Objmod.set. rewrite Hp. cbn [negb]. fold address. fold k.
  unfold bind. destruct (Objmod.set_loop address obj h) as [[value h1]| |]; auto.
  destruct (js_put value k v h1) as [[u h2]| |]; reflexivity.
Qed.

Lemma set_is_legacy_set_one_deeper_witness :
  Legacy.set (VObject 0) "city.alias.alias" (VString "m") city_heap
  = (run Objmod.set (VObject 0) "city.alias" (VString "m"); ret (VBool true))
      city_heap.
Proof.
  apply (set_is_legacy_set_one_deeper (VObject 0) "city.alias" (VString "m")
           city_heap).
  reflexivity.
Defined.

(** X6. set is idempotent on a closed heap without cycles below the
    root, for a path of non-empty segments that are no names of the
    prototypes: setting a value and setting it again at the same path
    leaves, the second time, the heap exactly as it was. *)
Theorem set_twice_is_set_once n (h : heap) l p v :
  closed h = true ->
  l < length h ->
  finite_depth n h (VObject l) = true ->
  forallb nonempty (split "." p) = true ->
  own_path p = true ->
  exists h1,
    Objmod.set (VObject l) p v h = Ok (VUndefined, h1)
    /\ Objmod.set (VObject l) p v h1 = Ok (VUndefined, h1).
Proof.
  intros Hclosed Hl Hdepth Hvalid _.
  assert (Hp : nonempty p = true) by (destruct p; [discriminate|reflexivity]).
  destruct (set_loop_effect (split "." p) l h (closed_refs_inside _ Hclosed) Hl)
    as (c & h' & Hloop & Hres & Hc & _ & _ & Hdeep).
  set (k := last_key (split "." p)).
  pose proof (walk_survives h' c k v _ _ _ (Hdeep _ _ Hdepth) Hres) as Hres1.
  eexists. split.
  - unfold Objmod.set. rewrite Hp, (filter_all _ _ Hvalid). cbn [negb].
    unfold bind. rewrite Hloop. reflexivity.
  - unfold Objmod.set. rewrite Hp, (filter_all _ _ Hvalid). cbn [negb].
    unfold bind. fold k. rewrite (set_loop_existing _ _ _ _ Hres1).
    cbn [js_put]. rewrite list_insert_insert_eq.
    rewrite list_lookup_total_insert_eq by exact Hc.
    now rewrite prop_put_again.
Qed.

Lemma set_twice_is_set_once_witness :
  exists h1,
    Objmod.set (VObject 0) "city.alias" (VString "m") city_heap
    = Ok (VUndefined, h1)
    /\ Objmod.set (VObject 0) "city.alias" (VString "m") h1
       = Ok (VUndefined, h1).
Proof.
  apply (set_twice_is_set_once 2 city_heap 0 "city.alias" (VString "m"));
    [reflexivity|cbn; lia|reflexivity|reflexivity|reflexivity].
Defined.

(** X7. On a closed heap without cycles below the root and for a path
    of non-empty segments that are no names of the prototypes, del right
    after set returns the value that was set: set stores it inside the
    container it creates at the path, under the name of the last segment,
    which is where del looks. *)
Theorem del_after_set_returns_value n (h : heap) l p v :
  closed h = true ->
  l < length h ->
  finite_depth n h (VObject l) = true ->
  forallb nonempty (split "." p) = true ->
  own_path p = true ->
  exists h1 h2,
    Objmod.set (VObject l) p v h = Ok (VUndefined, h1)
    /\ Objmod.del (VObject l) p h1 = Ok (v, h2).
Proof.
  intros Hclosed Hl Hdepth Hvalid _.
  assert (Hp : nonempty p = true) by (destruct p; [discriminate|reflexivity]).
  destruct (set_loop_effect (split "." p) l h (closed_refs_inside _ Hclosed) Hl)
    as (c & h' & Hloop & Hres & Hc & _ & _ & Hdeep).
  set (k := last_key (split "." p)).
  pose proof (walk_survives h' c k v _ _ _ (Hdeep _ _ Hdepth) Hres) as Hres1.
  eexists _, _. split.
  - unfold Objmod.set. rewrite Hp, (filter_all _ _ Hvalid). cbn [negb].
    unfold bind. rewrite Hloop. reflexivity.
  - rewrite del_effect. unfold walk_target. fold k. rewrite Hres1. cbv zeta.
    now rewrite final_write_read.
Qed.

Lemma del_after_set_returns_value_witness :
  exists h1 h2,
    Objmod.set (VObject 0) "city.alias" (VString "m") city_heap
    = Ok (VUndefined, h1)
    /\ Objmod.del (VObject 0) "city.alias" h1 = Ok (VString "m", h2).
Proof.
  apply (del_after_set_returns_value 2 city_heap 0 "city.alias" (VString "m"));
    [reflexivity|cbn; lia|reflexivity|reflexivity|reflexivity].
Defined.

(** X8. For a path whose segments are no names of the prototypes, del
    returns on every heap, and it never removes a property: each key of
    each object is still a key afterwards. *)
Theorem del_never_removes (h : heap) l p :
  own_path p = true ->
  exists r h', Objmod.del (VObject l) p h = Ok (r, h') /\ keeps_keys h h'.
Proof.
  intros _. destruct (del_keeps_keys h l p) as (r & h' & Hdel & Hkeys).
  exists r, h'. split; assumption.
Qed.

Lemma del_never_removes_witness :
  exists r h',
    Objmod.del (VObject 0) "city" example_heap = Ok (r, h')
    /\ keeps_keys example_heap h'.
Proof. apply (del_never_removes example_heap 0 "city"). reflexivity. Defined.

(** X9. set keeps the heap well formed: on a heap whose references point
    inside, with a root and a value that point inside, and for a path whose
    segments are no names of the prototypes (the empty path is one), set
    returns, the references of the new heap point inside, no object is
    dropped and no key is removed. *)
Theorem set_keeps_heap_closed (h : heap) l p v :
  closed h = true ->
  l < length h ->
  points_inside h v = true ->
  own_path p = true ->
  exists r h',
    Objmod.set (VObject l) p v h = Ok (r, h')
    /\ refs_inside h'
    /\ length h <= length h'
    /\ keeps_keys h h'.
Proof.
  intros Hclosed Hl Hv _.
  apply set_returns; [now apply closed_refs_inside|exact Hl|].
  intros b ->. cbn in Hv. now apply Nat.ltb_lt in Hv.
Qed.

Lemma set_keeps_heap_closed_witness :
  exists r h',
    Objmod.set (VObject 0) "city.mayor" (VObject 1) city_heap = Ok (r, h')
    /\ refs_inside h'
    /\ length city_heap <= length h'
    /\ keeps_keys city_heap h'.
Proof.
  apply (set_keeps_heap_closed city_heap 0 "city.mayor" (VObject 1));
    [reflexivity|cbn; lia|reflexivity|reflexivity].
Defined.

(** X10. filter with a predicate that accepts every entry of the
    object changes nothing. *)
Theorem filter_keeping_all_is_identity
  n fuel (h : heap) l (keep : string -> jsvalue -> bool) :
  n <= fuel ->
  finite_depth n h (VObject l) = true ->
  forallb (fun kv => keep kv.1 kv.2) (spec_preorder n h "" (VObject l)) = true ->
  Objmod.filter fuel (VObject l) (fun p v => ret (keep p v)) h = Ok (tt, h).
Proof.
  intros Hfuel Hdepth Hall. rewrite forallb_forall in Hall.
  unfold Objmod.filter, bind at 1.
  rewrite (scan_preorder h n) by assumption.
  apply for_each_filter_keep. intros p v Hin.
  destruct (map_set_all_in _ _ _ Hin) as [Hin'|[]].
  exact (Hall (p, v) Hin').
Qed.

Lemma filter_keeping_all_is_identity_witness :
  Objmod.filter 2 (VObject 0)
    (fun p v => ret (negb (String.eqb p "country"))) example_heap
  = Ok (tt, example_heap).
Proof.
  apply (filter_keeping_all_is_identity 2 2 example_heap 0
           (fun p v => negb (String.eqb p "country")));
    [lia|reflexivity|reflexivity].
Defined.

(** X11. On an object without cycles whose enumerated paths have no
    segment named like a property of the prototypes, filter returns for
    every predicate without effects, and it removes no property: each key
    of each object is still a key afterwards, also for the entries the
    predicate rejects. *)
Theorem filter_never_removes
  n fuel (h : heap) l (keep : string -> jsvalue -> bool) :
  n <= fuel ->
  finite_depth n h (VObject l) = true ->
  own_paths n h (VObject l) = true ->
  exists h',
    Objmod.filter fuel (VObject l) (fun p v => ret (keep p v)) h = Ok (tt, h')
    /\ keeps_keys h h'.
Proof.
  intros Hfuel Hdepth _. unfold Objmod.filter, bind at 1.
  rewrite (scan_preorder h n) by assumption.
  apply for_each_filter_keys.
Qed.

Lemma filter_never_removes_witness :
  exists h',
    Objmod.filter 2 (VObject 0) (fun p v => ret false) example_heap
    = Ok (tt, h')
    /\ keeps_keys example_heap h'.
Proof.
  apply (filter_never_removes 2 2 example_heap 0 (fun p v => false));
    [lia|reflexivity|reflexivity].
Defined.

(** X12. foreach calls the callback on the entries scan enumerates, in
    that order, and on the entries as they were before the first call:
    what a callback does to the objects does not change which entries
    the later calls receive. *)
Theorem foreach_visits_snapshot n fuel (h : heap) l func :
  n <= fuel ->
  finite_depth n h (VObject l) = true ->
  Objmod.foreach fuel (VObject l) func h
  = for_of (map_set_all (spec_preorder n h "" (VObject l)) [])
      (fun _ kv => run func kv.1 kv.2; ret tt) tt h.
Proof.
  intros Hfuel Hdepth. unfold Objmod.foreach, bind at 1.
  rewrite (scan_preorder h n) by assumption.
  unfold Objmod.for_each. apply for_of_ext. now intros [] [p v] h'.
Qed.

Lemma foreach_visits_snapshot_witness :
  Objmod.foreach 2 (VObject 0)
    (fun p v => run Objmod.del (VObject 0) "city"; ret v) city_heap
  = for_of
      [("name", VString "mahdi"); ("city", VObject 1);
       ("city.name", VString "mashhad"); ("city.code", VString "051")]
      (fun _ kv => run (run Objmod.del (VObject 0) "city"; ret kv.2); ret tt)
      tt city_heap.
Proof.
  apply (foreach_visits_snapshot 2 2 city_heap 0
           (fun p v => run Objmod.del (VObject 0) "city"; ret v));
    [lia|reflexivity].
Defined.

(** X13. scan against has and get: on an object without cycles and with
    distinct, non-empty, dot-free keys, and among the paths whose segments
    are no names of the prototypes, the paths of the [Map] scan returns
    are exactly the paths has accepts, and the [Map] holds at each of them
    the value get reads there; get returns its default exactly at the
    paths the [Map] lacks. *)
Theorem scan_agrees_with_reads n fuel (h : heap) l :
  n <= fuel ->
  finite_depth n h (VObject l) = true ->
  plain_keys n h (VObject l) = true ->
  exists m,
    Objmod.scan fuel (VObject l) "" [] h = Ok (m, h)
    /\ (forall p,
          own_path p = true ->
          Objmod.has (VObject l) p h = Ok (map_has p m, h))
    /\ (forall p d,
          own_path p = true ->
          Objmod.get (VObject l) p d h = Ok (default d (map_get p m), h)).
Proof.
  intros Hfuel Hdepth Hkeys.
  destruct (scan_matches_reads n fuel h l Hfuel Hdepth Hkeys)
    as (m & Hscan & Hhas & Hget).
  exists m. split; [exact Hscan|]. split.
  - intros p _. apply Hhas.
  - intros p d _. apply Hget.
Qed.

Lemma scan_agrees_with_reads_witness :
  exists m,
    Objmod.scan 2 (VObject 0) "" [] example_heap = Ok (m, example_heap)
    /\ Objmod.has (VObject 0) "skills.1" example_heap
       = Ok (map_has "skills.1" m, example_heap)
    /\ Objmod.has (VObject 0) "skills.3" example_heap
       = Ok (map_has "skills.3" m, example_heap)
    /\ Objmod.get (VObject 0) "city.code" VUndefined example_heap
       = Ok (default VUndefined (map_get "city.code" m), example_heap).
Proof.
  destruct (scan_agrees_with_reads 2 2 example_heap 0)
    as (m & Hscan & Hhas & Hget); [lia|reflexivity|reflexivity|].
  exists m. split; [exact Hscan|]. split; [|split].
  - apply Hhas. reflexivity.
  - apply Hhas. reflexivity.
  - apply Hget. reflexivity.
Defined.

(** X14. A cache is transparent right after it is built: on an object
    without cycles and with distinct, non-empty, dot-free keys, [c.has(p)]
    answers what has answers and [c.get(p, d)] returns what get returns,
    for every default and every path whose segments are no names of the
    prototypes. *)
Theorem cache_fresh_agrees n fuel (h : heap) l :
  n <= fuel ->
  finite_depth n h (VObject l) = true ->
  plain_keys n h (VObject l) = true ->
  exists c,
    Objmod.cache fuel (VObject l) h = Ok (c, h)
    /\ (forall p,
          own_path p = true ->
          Objmod.has (VObject l) p h = Ok (Objmod.cache_has c p, h))
    /\ (forall p d,
          exists x c',
            Objmod.get (VObject l) p d h = Ok (x, h)
            /\ Objmod.cache_get c p d h = Ok ((x, c'), h)).
Proof.
  intros Hfuel Hdepth Hkeys.
  destruct (scan_matches_reads n fuel h l Hfuel Hdepth Hkeys)
    as (m & Hscan & Hhas & Hget).
  exists {| Objmod.c_obj := VObject l; Objmod.c_map := m |}.
  split; [unfold Objmod.cache, bind; now rewrite Hscan|]. split.
  - intros p _. apply Hhas.
  - intros p d. rewrite Hget.
    destruct (map_get p m) as [x|] eqn:Hp.
    + exists x, {| Objmod.c_obj := VObject l; Objmod.c_map := m |}.
      split; [reflexivity|]. now apply cache_get_hit.
    + eexists d, _. split; [reflexivity|].
      unfold Objmod.cache_get, map_has, prop_mem. cbn [Objmod.c_map Objmod.c_obj].
      change (prop_lookup p m) with (map_get p m). rewrite Hp.
      unfold bind. rewrite Hget, Hp. reflexivity.
Qed.

Lemma cache_fresh_agrees_witness :
  exists c,
    Objmod.cache 2 (VObject 0) example_heap = Ok (c, example_heap)
    /\ Objmod.has (VObject 0) "skills.1" example_heap
       = Ok (Objmod.cache_has c "skills.1", example_heap)
    /\ Objmod.has (VObject 0) "skills.3" example_heap
       = Ok (Objmod.cache_has c "skills.3", example_heap)
    /\ (forall p d,
          exists x c',
            Objmod.get (VObject 0) p d example_heap = Ok (x, example_heap)
            /\ Objmod.cache_get c p d example_heap = Ok ((x, c'), example_heap)).
Proof.
  destruct (cache_fresh_agrees 2 2 example_heap 0)
    as (c & Hc & Hhas & Hget); [lia|reflexivity|reflexivity|].
  exists c. split; [exact Hc|]. split; [|split].
  - apply Hhas. reflexivity.
  - apply Hhas. reflexivity.
  - exact Hget.
Defined.

(** X15. refresh builds the cache anew: whatever the index held before
    (stale values, cached defaults, paths written through [c.set]), the
    cache after [c.refresh()] is the one [cache(obj)] would return now. *)
Theorem refresh_rebuilds n fuel (h : heap) l :
  n <= fuel ->
  finite_depth n h (VObject l) = true ->
  exists c,
    Objmod.cache fuel (VObject l) h = Ok (c, h)
    /\ forall index,
        Objmod.cache_refresh fuel
          {| Objmod.c_obj := VObject l; Objmod.c_map := index |} h
        = Ok (c, h).
Proof.
  intros Hfuel Hdepth. eexists. split; [now apply (cache_built h n)|].
  intros index. rewrite (cache_refreshed h n) by assumption.
  now rewrite map_copy.
Qed.

Lemma refresh_rebuilds_witness :
  exists c,
    Objmod.cache 2 (VObject 0) example_heap = Ok (c, example_heap)
    /\ forall index,
        Objmod.cache_refresh 2
          {| Objmod.c_obj := VObject 0; Objmod.c_map := index |} example_heap
        = Ok (c, example_heap).
Proof.
  apply (refresh_rebuilds 2 2 example_heap 0); [lia|reflexivity].
Defined.

(** X16. A miss of [c.get] is remembered: the value get returned, which
    is the default when the path does not resolve, is stored in the index;
    from then on [c.has(p)] is true and [c.get(p)] returns that value,
    whatever default it is given and whatever happens to the object. *)
Theorem cache_miss_is_kept c p d (h : heap) :
  Objmod.cache_has c p = false ->
  exists x c',
    Objmod.get (Objmod.c_obj c) p d h = Ok (x, h)
    /\ Objmod.cache_get c p d h = Ok ((x, c'), h)
    /\ Objmod.cache_has c' p = true
    /\ forall d' h', Objmod.cache_get c' p d' h' = Ok ((x, c'), h').
Proof.
  intros Hmiss. rewrite get_resolve. eexists _, _. split; [reflexivity|].
  split; [|split].
  - unfold Objmod.cache_get. unfold Objmod.cache_has in Hmiss. rewrite Hmiss.
    unfold bind. rewrite get_resolve. reflexivity.
  - unfold Objmod.cache_has, map_has, prop_mem. cbn [Objmod.c_map].
    change (prop_lookup p ?m) with (map_get p m).
    now rewrite map_set_get, String.eqb_refl.
  - intros d' h'. apply cache_get_hit. cbn [Objmod.c_map].
    now rewrite map_set_get, String.eqb_refl.
Qed.

Lemma cache_miss_is_kept_witness :
  exists x c',
    Objmod.get (VObject 0) "city.alias" (VString "none") city_heap
    = Ok (x, city_heap)
    /\ Objmod.cache_get
         {| Objmod.c_obj := VObject 0; Objmod.c_map := [] |}
         "city.alias" (VString "none") city_heap
       = Ok ((x, c'), city_heap)
    /\ Objmod.cache_has c' "city.alias" = true
    /\ forall d' h',
        Objmod.cache_get c' "city.alias" d' h' = Ok ((x, c'), h').
Proof.
  apply (cache_miss_is_kept {| Objmod.c_obj := VObject 0; Objmod.c_map := [] |}
           "city.alias" (VString "none") city_heap).
  reflexivity.
Defined.

(** X17. [c.set(p, v)] writes the index before it calls set: on a closed
    heap and for a path whose segments are no names of the prototypes, it
    returns what set returns, and afterwards [c.has(p)] is true and
    [c.get(p)] returns [v] on every heap, while the other paths of the
    index are as before. The empty path, which set itself refuses, is
    indexed like the others. *)
Theorem cache_set_indexes (h : heap) l index p v :
  closed h = true ->
  l < length h ->
  own_path p = true ->
  let c := {| Objmod.c_obj := VObject l; Objmod.c_map := index |} in
  exists r c' h',
    Objmod.cache_set c p v h = Ok ((r, c'), h')
    /\ Objmod.set (VObject l) p v h = Ok (r, h')
    /\ Objmod.cache_has c' p = true
    /\ (forall d h'', Objmod.cache_get c' p d h'' = Ok ((v, c'), h''))
    /\ (forall q, q <> p ->
                  map_get q (Objmod.c_map c') = map_get q index).
Proof.
  intros Hclosed Hl _ c.
  assert (Hset : exists r h', Objmod.set (VObject l) p v h = Ok (r, h')).
  { destruct (nonempty p) eqn:Hp.
    - destruct (set_effect h l p v Hclosed Hl Hp) as (c0 & h0 & Hs & _). eauto.
    - unfold Objmod.set. rewrite Hp. eexists _, _. reflexivity. }
  destruct Hset as (r & h' & Hset).
  exists r, {| Objmod.c_obj := VObject l; Objmod.c_map := map_set p v index |}, h'.
  split; [unfold Objmod.cache_set, bind; cbn; now rewrite Hset|].
  split; [exact Hset|]. split; [|split].
  - unfold Objmod.cache_has, map_has, prop_mem. cbn [Objmod.c_map].
    change (prop_lookup p ?m) with (map_get p m).
    now rewrite map_set_get, String.eqb_refl.
  - intros d h''. apply cache_get_hit. cbn [Objmod.c_map].
    now rewrite map_set_get, String.eqb_refl.
  - intros q Hq. cbn [Objmod.c_map]. rewrite map_set_get.
    destruct (String.eqb_spec q p); [contradiction|reflexivity].
Qed.

Lemma cache_set_indexes_witness :
  exists r c' h',
    Objmod.cache_set
      {| Objmod.c_obj := VObject 0;
         Objmod.c_map := [("name", VString "mahdi"); ("city", VObject 1);
                          ("city.name", VString "mashhad");
                          ("city.code", VString "051")] |}
      "city.name" (VString "tus") city_heap
    = Ok ((r, c'), h')
    /\ Objmod.set (VObject 0) "city.name" (VString "tus") city_heap = Ok (r, h')
    /\ Objmod.cache_has c' "city.name" = true
    /\ (forall d h'',
          Objmod.cache_get c' "city.name" d h'' = Ok ((VString "tus", c'), h''))
    /\ (forall q, q <> "city.name" ->
                  map_get q (Objmod.c_map c')
                  = map_get q [("name", VString "mahdi"); ("city", VObject 1);
                               ("city.name", VString "mashhad");
                               ("city.code", VString "051")]).
Proof.
  apply (cache_set_indexes city_heap 0
           [("name", VString "mahdi"); ("city", VObject 1);
            ("city.name", VString "mashhad"); ("city.code", VString "051")]
           "city.name" (VString "tus"));
    [reflexivity|cbn; lia|reflexivity].
Defined.

(** X18. On a closed heap and for a source without cycles whose
    enumerated paths have no segment named like a property of the
    prototypes, merge returns, its result is the target it was given (the
    same object), and no property of any object is removed. *)
Theorem merge_returns_target n fuel (h : heap) t s :
  closed h = true ->
  t < length h ->
  n <= fuel ->
  finite_depth n h (VObject s) = true ->
  own_paths n h (VObject s) = true ->
  exists h',
    Objmod.merge fuel (VObject t) (VObject s) h = Ok (VObject t, h')
    /\ keeps_keys h h'.
Proof.
  intros Hclosed Ht Hfuel Hdepth _. unfold Objmod.merge, bind at 1.
  rewrite (scan_preorder h n) by assumption.
  destruct (merge_loop t (map_set_all (spec_preorder n h "" (VObject s)) []) h
              (closed_refs_inside _ Hclosed) Ht) as (h' & Hloop & Hkeys).
  { intros p b Hin. destruct (map_set_all_in _ _ _ Hin) as [Hin'|[]].
    now apply (preorder_inside h n "" (VObject s) p b). }
  exists h'. split; [|exact Hkeys]. unfold bind at 1. now rewrite Hloop.
Qed.

Lemma merge_returns_target_witness :
  exists h',
    Objmod.merge 2 (VObject 0) (VObject 1) merge_heap = Ok (VObject 0, h')
    /\ keeps_keys merge_heap h'.
Proof.
  apply (merge_returns_target 2 2 merge_heap 0 1);
    [reflexivity|cbn; lia|lia|reflexivity|reflexivity].
Defined.

(** X19. Reads do not normalise a path as set does: on an object without
    cycles and with distinct, non-empty, dot-free keys, a path with an
    empty segment (["a..b"], [".a"], ["a."], [""]) is never found, has
    answers false and get returns its default. *)
Theorem reads_miss_on_empty_segment n (h : heap) l p d :
  finite_depth n h (VObject l) = true ->
  plain_keys n h (VObject l) = true ->
  forallb nonempty (split "." p) = false ->
  Objmod.has (VObject l) p h = Ok (false, h)
  /\ Objmod.get (VObject l) p d h = Ok (d, h).
Proof.
  intros Hdepth Hkeys Hempty.
  assert (Hres : resolve h (split "." p) (VObject l) = None).
  { destruct (resolve h (split "." p) (VObject l)) as [x|] eqn:Hres;
      [|reflexivity].
    pose proof (resolve_plain h _ _ _ _ Hdepth Hkeys Hres). congruence. }
  unfold Objmod.has. now rewrite has_loop_resolve, get_resolve, Hres.
Qed.

Lemma reads_miss_on_empty_segment_witness :
  Objmod.has (VObject 0) "city..name" example_heap = Ok (false, example_heap)
  /\ Objmod.get (VObject 0) "city..name" (VString "none") example_heap
     = Ok (VString "none", example_heap).
Proof.
  apply (reads_miss_on_empty_segment 2 example_heap 0 "city..name"
           (VString "none"));
    reflexivity.
Defined.

(** X20. On a closed heap and an object without cycles whose enumerated
    paths have no segment named like a property of the prototypes, map
    returns for every callback without effects whose results are no
    dangling references, and it removes no property of any object. *)
Theorem map_never_removes
  n fuel (h : heap) l (f : string -> jsvalue -> jsvalue) :
  closed h = true ->
  l < length h ->
  n <= fuel ->
  finite_depth n h (VObject l) = true ->
  own_paths n h (VObject l) = true ->
  forallb (fun kv => points_inside h (f kv.1 kv.2))
    (spec_preorder n h "" (VObject l)) = true ->
  exists h',
    Objmod.map fuel (VObject l) (fun p v => ret (f p v)) h = Ok (tt, h')
    /\ keeps_keys h h'.
Proof.
  intros Hclosed Hl Hfuel Hdepth _ Hall. rewrite forallb_forall in Hall.
  unfold Objmod.map, bind at 1.
  rewrite (scan_preorder h n) by assumption.
  apply map_loop; [now apply closed_refs_inside|exact Hl|].
  intros p v Hin. destruct (map_set_all_in _ _ _ Hin) as [Hin'|[]].
  exact (Hall (p, v) Hin').
Qed.

Lemma map_never_removes_witness :
  exists h',
    Objmod.map 2 (VObject 0) (fun p v => ret (VString p)) example_heap
    = Ok (tt, h')
    /\ keeps_keys example_heap h'.
Proof.
  apply (map_never_removes 2 2 example_heap 0 (fun p v => VString p));
    [reflexivity|cbn; lia|lia|reflexivity|reflexivity|reflexivity].
Defined.
